(** * App-de-AudioLibros: the text-to-audiobook pipeline of [App.tsx]

    A shallow embedding of the parts of [src/App.tsx] and of the Gemini
    service module ([services/geminiService]) that carry behaviour:
    the sentence chunker [splitTextIntoChunks], the PCM assembly and MP3
    block loop of [handleGenerateAudio] / [createMp3Blob], and the event
    handlers with their error paths.

    Conventions.
    - A JavaScript string is the list of its UTF-16 code units
      ([jsstring]); [.length] is [length].  User-facing messages, which the
      code only stores and compares, are kept as Rocq strings.
    - Lengths, indices and [maxLength] are natural numbers.
    - A JavaScript [while]/[for] loop is run by [while] with an explicit
      iteration budget; [None] means the budget ran out.
    - A promise is the list of service calls made by the time it was
      created, with the API requests they sent, together with the value or
      exception it settles with. *)

From Stdlib Require Import NArith ZArith String Ascii.
From stdpp Require Import base option list list_numbers gmap strings.

Open Scope nat_scope.

(** ** JavaScript strings *)

Abbreviation jsstring := (list N).

(** Code units of an ASCII literal such as ['text/plain']. *)
Definition js (s : string) : jsstring :=
  (λ c, N_of_ascii c) <$> list_ascii_of_string s.

(** [WhiteSpace] and [LineTerminator] code units of ECMAScript, the ones
    [String.prototype.trim] strips. *)
Definition isWhiteSpace (c : N) : bool :=
  bool_decide (c ∈ [9; 10; 11; 12; 13; 32; 160; 5760; 8232; 8233; 8239; 8287;
                    12288; 65279]%N)
  || ((8192 <=? c)%N && (c <=? 8202)%N).

Fixpoint dropWhile {A} (p : A → bool) (l : list A) : list A :=
  match l with
  | [] => []
  | x :: l' => if p x then dropWhile p l' else l
  end.

Definition trimStart (s : jsstring) : jsstring := dropWhile isWhiteSpace s.
Definition trimEnd (s : jsstring) : jsstring :=
  reverse (dropWhile isWhiteSpace (reverse s)).
Definition trim (s : jsstring) : jsstring := trimEnd (trimStart s).

(** [s.substring(start, end)] for non-negative integer arguments: both are
    clamped to the length and swapped when out of order. *)
Definition substring (s : jsstring) (start finish : nat) : jsstring :=
  let finalStart := start `min` length s in
  let finalEnd := finish `min` length s in
  let from := finalStart `min` finalEnd in
  let to := finalStart `max` finalEnd in
  take (to - from) (drop from s).

(** ** The regular expression [/[^.!?]+[.!?]+/g]

    A backtracking matcher for the fragment the pattern uses: character
    classes under a greedy [+], and concatenation.  The continuation [k]
    receives the unconsumed input and answers with what is left after the
    whole match. *)

Record charClass := { negated : bool; members : list N }.

Definition inClass (cls : charClass) (c : N) : bool :=
  xorb (negated cls) (bool_decide (c ∈ members cls)).

Inductive regex :=
| OneOrMore (cls : charClass)
| Concat (r1 r2 : regex).

Fixpoint matchStar (cls : charClass) (s : jsstring)
    (k : jsstring → option jsstring) : option jsstring :=
  match s with
  | [] => k []
  | c :: t =>
      if inClass cls c then
        match matchStar cls t k with
        | Some rest => Some rest
        | None => k s
        end
      else k s
  end.

Definition matchPlus (cls : charClass) (s : jsstring)
    (k : jsstring → option jsstring) : option jsstring :=
  match s with
  | [] => None
  | c :: t => if inClass cls c then matchStar cls t k else None
  end.

Fixpoint matchRegex (r : regex) (s : jsstring)
    (k : jsstring → option jsstring) : option jsstring :=
  match r with
  | OneOrMore cls => matchPlus cls s k
  | Concat r1 r2 => matchRegex r1 s (λ s', matchRegex r2 s' k)
  end.

(** One attempt of the pattern at the head of [s]: the input left after the
    match. *)
Definition matchAt (r : regex) (s : jsstring) : option jsstring :=
  matchRegex r s Some.

(** [s.match(r)] for a global pattern: the matches from left to right, each
    search resuming where the previous match ended and moving one code unit
    ahead when the pattern fails at a position.  A match consumes at least
    one code unit, so [length s] rounds reach the end of the input. *)
Fixpoint matchAllFrom (rounds : nat) (r : regex) (s : jsstring) : list jsstring :=
  match rounds with
  | 0 => []
  | S rounds' =>
      match s with
      | [] => []
      | _ :: t =>
          match matchAt r s with
          | Some rest => take (length s - length rest) s :: matchAllFrom rounds' r rest
          | None => matchAllFrom rounds' r t
          end
      end
  end.

Definition stringMatchAll (r : regex) (s : jsstring) : list jsstring :=
  matchAllFrom (length s) r s.

(** The code units of [.], [!] and [?]. *)
Definition terminators : list N := [46; 33; 63]%N.

Definition sentencePattern : regex :=
  Concat (OneOrMore {| negated := true; members := terminators |})
         (OneOrMore {| negated := false; members := terminators |}).

(** ** Loops *)

(** [while (cond) body] with an iteration budget. *)
Fixpoint while {St} (fuel : nat) (cond : St → bool) (body : St → St) (st : St)
    : option St :=
  match fuel with
  | 0 => None
  | S fuel' => if cond st then while fuel' cond body (body st) else Some st
  end.

(** ** [splitTextIntoChunks] *)

(** The slicing loop, which the function has twice (for a text without
    sentences and for an overlong sentence):
    [let i = 0; while (i < s.length) { chunks.push(s.substring(i, i + maxLength)); i += maxLength; }] *)
Definition sliceCond (s : jsstring) (st : nat * list jsstring) : bool :=
  bool_decide (st.1 < length s).

Definition sliceBody (s : jsstring) (maxLength : nat) (st : nat * list jsstring)
    : nat * list jsstring :=
  (st.1 + maxLength, st.2 ++ [substring s st.1 (st.1 + maxLength)]).

Definition pushSlices (fuel : nat) (s : jsstring) (maxLength : nat)
    (chunks : list jsstring) : option (list jsstring) :=
  st ← while fuel (sliceCond s) (sliceBody s maxLength) (0, chunks);
  Some st.2.

(** The body of [for (const sentence of sentences)], on the pair
    [(chunks, currentChunk)]. *)
Definition sentenceStep (fuel maxLength : nat)
    (st : list jsstring * jsstring) (sentence : jsstring)
    : option (list jsstring * jsstring) :=
  let chunks := st.1 in
  let currentChunk := st.2 in
  let trimmedSentence := trim sentence in
  if bool_decide (length trimmedSentence = 0) then Some st
  else if bool_decide (maxLength < length trimmedSentence) then
    let flushed :=
      if bool_decide (0 < length currentChunk)
      then (chunks ++ [currentChunk], [])
      else (chunks, currentChunk) in
    chunks' ← pushSlices fuel trimmedSentence maxLength flushed.1;
    Some (chunks', flushed.2)
  else if bool_decide (maxLength < length (currentChunk ++ [32%N] ++ trimmedSentence))
  then Some (chunks ++ [currentChunk], trimmedSentence)
  else
    Some (chunks,
          currentChunk
            ++ (if bool_decide (0 < length currentChunk) then [32%N] else [])
            ++ trimmedSentence).

Fixpoint forSentences (fuel maxLength : nat) (sentences : list jsstring)
    (st : list jsstring * jsstring) : option (list jsstring * jsstring) :=
  match sentences with
  | [] => Some st
  | sentence :: rest =>
      st' ← sentenceStep fuel maxLength st sentence;
      forSentences fuel maxLength rest st'
  end.

Definition splitTextIntoChunks (fuel : nat) (text : jsstring) (maxLength : nat)
    : option (list jsstring) :=
  let sentences := stringMatchAll sentencePattern text in
  if bool_decide (length sentences = 0) then
    if bool_decide (maxLength < length text) then
      pushSlices fuel text maxLength []
    else
      Some (if bool_decide (text = []) then [] else [text])
  else
    st ← forSentences fuel maxLength sentences ([], []);
    Some (if bool_decide (0 < length st.2) then st.1 ++ [st.2] else st.1).

(** ** Exceptions and promises *)

(** A thrown or rejected value: an [Error] object with its message, a bare
    string (the PDF reader rejects with strings), or anything else. *)
Inductive Exn :=
| ErrorObj (message : string)
| StringValue (s : string)
| OtherValue.

Inductive Completion (A : Type) :=
| Normal (a : A)
| Throw (e : Exn).
Arguments Normal {A} a.
Arguments Throw {A} e.

#[global] Instance Completion_ret : MRet Completion := λ A a, Normal a.
#[global] Instance Completion_bind : MBind Completion := λ A B f m,
  match m with
  | Normal a => f a
  | Throw e => Throw e
  end.
#[global] Instance Completion_fmap : FMap Completion := λ A B f m,
  match m with
  | Normal a => Normal (f a)
  | Throw e => Throw e
  end.

(** ** Typed arrays and the PCM assembly of [handleGenerateAudio] *)

(** [new Uint8Array(n)]: [n] zero bytes. *)
Definition Uint8Array_new (n : nat) : list N := replicate n 0%N.

(** [new Uint8Array(numbers)]: every number is stored modulo 256. *)
Definition Uint8Array_from (numbers : list N) : list N :=
  (λ n, (n mod 256)%N) <$> numbers.

(** [target.set(source, offset)]: a [RangeError] when the source does not
    fit, otherwise the bytes are copied in place. *)
Definition Uint8Array_set (target source : list N) (offset : nat)
    : Completion (list N) :=
  if bool_decide (offset + length source ≤ length target)
  then Normal (list_inserts offset source target)
  else Throw (ErrorObj "offset is out of bounds").

(** [for (const buffer of arrayBuffers) { combinedPcm.set(new Uint8Array(buffer), offset); offset += buffer.byteLength; }] *)
Fixpoint copyBuffers (arrayBuffers : list (list N)) (combinedPcm : list N)
    (offset : nat) : Completion (list N) :=
  match arrayBuffers with
  | [] => Normal combinedPcm
  | buffer :: rest =>
      combinedPcm' ← Uint8Array_set combinedPcm buffer offset;
      copyBuffers rest combinedPcm' (offset + length buffer)
  end.

Definition combinePcm (arrayBuffers : list (list N)) : Completion (list N) :=
  let totalLength := foldl (λ acc value, acc + length value) 0 arrayBuffers in
  let combinedPcm := Uint8Array_new totalLength in
  copyBuffers arrayBuffers combinedPcm 0.

(** [new Int16Array(buffer)]: a [RangeError] for an odd byte length,
    otherwise the little-endian signed 16-bit samples. *)
Definition toInt16 (lo hi : N) : Z :=
  let u := (Z.of_N lo + 256 * Z.of_N hi)%Z in
  if (u <? 32768)%Z then u else (u - 65536)%Z.

Fixpoint samplesOf (buffer : list N) : list Z :=
  match buffer with
  | lo :: hi :: rest => toInt16 lo hi :: samplesOf rest
  | _ => []
  end.

Definition Int16Array_of (buffer : list N) : Completion (list Z) :=
  if bool_decide (length buffer `mod` 2 = 0)
  then Normal (samplesOf buffer)
  else Throw (ErrorObj "byte length of Int16Array should be a multiple of 2").

(** [a.subarray(begin, end)] for non-negative integer arguments. *)
Definition subarray {A} (a : list A) (start finish : nat) : list A :=
  let from := start `min` length a in
  let to := finish `min` length a in
  take (to - from) (drop from a).

(** ** [createMp3Blob] *)

Record Blob := { blobParts : list (list N); blobType : string }.

(** The [lamejs] encoder object: its internal state and the two methods the
    code calls. *)
Class LameJs := {
  Mp3Encoder : Type;
  newMp3Encoder : N → N → N → Mp3Encoder;
  encodeBuffer : Mp3Encoder → list Z → Mp3Encoder * list N;
  flush : Mp3Encoder → list N;
}.

Definition sampleBlockSize : nat := 1152.

Section Mp3.
Context {L : LameJs}.

(** State of the [for] loop: the index [i], the encoder and [mp3Data]. *)
Definition encodeCond (pcm : list Z)
    (st : nat * Mp3Encoder * list (list N)) : bool :=
  bool_decide (st.1.1 < length pcm).

Definition encodeBody (pcm : list Z)
    (st : nat * Mp3Encoder * list (list N)) : nat * Mp3Encoder * list (list N) :=
  let i := st.1.1 in
  let sampleChunk := subarray pcm i (i + sampleBlockSize) in
  let enc := encodeBuffer st.1.2 sampleChunk in
  let mp3buf := enc.2 in
  (i + sampleBlockSize, enc.1,
   if bool_decide (0 < length mp3buf) then st.2 ++ [mp3buf] else st.2).

Definition createMp3Blob (fuel : nat) (pcmData : list N)
    (sampleRate numChannels : N) : option (Completion Blob) :=
  match Int16Array_of pcmData with
  | Throw e => Some (Throw e)
  | Normal pcm =>
      let mp3encoder := newMp3Encoder numChannels sampleRate 128%N in
      st ← while fuel (encodeCond pcm) (encodeBody pcm) (0, mp3encoder, []);
      let mp3buf := flush st.1.2 in
      let mp3Data :=
        if bool_decide (0 < length mp3buf) then st.2 ++ [mp3buf] else st.2 in
      Some (Normal {| blobParts := mp3Data; blobType := "audio/mpeg" |})
  end.
End Mp3.

(** ** The Gemini service module *)

(** The enumeration of [types.ts]; its string values are not in the sources
    and enter through [modeValue] below. *)
Inductive ResponseMode := Resumido | Completo | PuntosClave.

#[global] Instance ResponseMode_eq_dec : EqDecision ResponseMode.
Proof. solve_decision. Defined.

#[global] Instance ResponseMode_countable : Countable ResponseMode.
Proof.
  refine (inj_countable'
    (λ m, match m with Resumido => 0 | Completo => 1 | PuntosClave => 2 end)
    (λ n, match n with 0 => Resumido | 1 => Completo | _ => PuntosClave end) _).
  by intros [].
Defined.

Inductive Language := es | en.

#[global] Instance Language_eq_dec : EqDecision Language.
Proof. solve_decision. Defined.

(** The argument of [ai.models.generateContent]: the model, the two parts
    the [contents] template is filled with (a fixed instruction and the
    caller's text) and the prebuilt voice of a speech request. *)
Record GenerateContentParameters := {
  model : string;
  instruction : string;
  body : jsstring;
  voiceName : option string;
}.

(** What the code reads of a response: [response.text],
    [response.promptFeedback?.blockReason] and the inline data of the first
    part of the first candidate. *)
Record GenerateContentResponse := {
  responseText : option jsstring;
  blockReason : option string;
  inlineData : option jsstring;
}.

Record File := { file_type : string; file_name : jsstring; file_id : nat }.

(** Everything outside the repository: the Gemini SDK, the browser and
    pdf.js.  [generateContent] answers a request with a response or an
    exception, taken to depend on the request only; [firstRejected] names,
    among the rejections of a [Promise.all], the one that arrives first.
    [cleanTextForSpeech] is the service's chain of Markdown-stripping
    substitutions; no statement below depends on what it removes, so it is
    taken as given. *)
Class Environment := {
  generateContent : GenerateContentParameters → Completion GenerateContentResponse;
  firstRejected : list Exn → nat;
  cleanTextForSpeech : jsstring → jsstring;
  modeValue : ResponseMode → string;
  toLowerCase : string → string;
  atob : jsstring → Completion jsstring;
  createObjectURL : Blob → string;
  readAsText : File → option jsstring;
  readAsArrayBuffer : File → option (list N);
  pdfTextItems : list N → Completion (list (list jsstring));
}.

Definition getAnalysisPrompt (mode : ResponseMode) : string :=
  match mode with
  | Resumido =>
      "Genera un resumen conciso y breve del siguiente texto, capturando las ideas principales en uno o dos párrafos."
  | Completo =>
      "Actúa como un experto en la materia del siguiente texto. Tu tarea es crear un resumen sumamente completo y exhaustivo que sirva como material de estudio. Desarrolla en profundidad todos los conceptos y puntos clave, sin omitir ningún detalle relevante. Incluye insights y análisis adicionales que aporten valor y faciliten la comprensión total del tema. La estructura debe ser clara, lógica y didáctica, utilizando encabezados y párrafos para organizar la información."
  | PuntosClave =>
      "Extrae los puntos clave o las ideas más importantes del siguiente texto. Presenta los resultados en una lista con viñetas, donde cada punto sea claro y directo."
  end.

(** A call of one of the three exported service functions. *)
Inductive ServiceCall :=
| GenerateTextAnalysis (text : jsstring) (mode : ResponseMode)
| TranslateText (text : jsstring)
| GenerateSpeech (text : jsstring) (language : Language).

(** A call together with the API request it sent, if it got that far. *)
Record Invocation := {
  call : ServiceCall;
  request : option GenerateContentParameters;
}.

(** The promise an [async] function returns: the calls made (and requests
    sent) by the time it is handed back, and how it settles. *)
Record Promise (A : Type) := {
  invoked : list Invocation;
  settled : Completion A;
}.
Arguments invoked {A} p.
Arguments settled {A} p.

Definition quote : string := String (ascii_of_nat 34) EmptyString.

Section Service.
Context {E : Environment}.

Definition generateTextAnalysis (text : jsstring) (mode : ResponseMode)
    : Promise jsstring :=
  let prompt := getAnalysisPrompt mode in
  let params :=
    {| model := "gemini-2.5-flash"; instruction := prompt; body := text;
       voiceName := None |} in
  {| invoked := [ {| call := GenerateTextAnalysis text mode;
                     request := Some params |} ];
     settled :=
       response ← generateContent params;
       match responseText response with
       | Some resultText => Normal resultText
       | None =>
           Throw (ErrorObj ("La respuesta de la API para el modo " +:+ quote
                            +:+ modeValue mode +:+ quote +:+ " no contiene texto."))
       end |}.

Definition translateText (text : jsstring) : Promise jsstring :=
  let params :=
    {| model := "gemini-2.5-flash";
       instruction :=
         "Traduce el siguiente texto de español a inglés. Mantén el formato y el tono del texto original.";
       body := text; voiceName := None |} in
  {| invoked := [ {| call := TranslateText text; request := Some params |} ];
     settled :=
       response ← generateContent params;
       match responseText response with
       | Some resultText => Normal resultText
       | None =>
           Throw (ErrorObj "La respuesta de la API para la traducción no contiene texto.")
       end |}.

Definition generateSpeech (text : jsstring) (language : Language)
    : Promise jsstring :=
  let cleanedText := cleanTextForSpeech text in
  if bool_decide (cleanedText = []) then
    {| invoked := [ {| call := GenerateSpeech text language; request := None |} ];
       settled :=
         Throw (ErrorObj "Text is empty after cleaning, cannot generate speech.") |}
  else
    let voice := match language with es => "Kore" | en => "Zephyr" end in
    let instr :=
      match language with
      | es =>
          "Tu única tarea es leer en voz alta el siguiente texto de forma clara y natural. No añadas introducciones ni comentarios. Solo lee el texto proporcionado. Texto a leer:"
      | en =>
          "Your only task is to read the following text aloud clearly and naturally. Do not add any introductions or comments. Just read the provided text. Text to read:"
      end in
    let params :=
      {| model := "gemini-2.5-flash-preview-tts"; instruction := instr;
         body := cleanedText; voiceName := Some voice |} in
    {| invoked := [ {| call := GenerateSpeech text language;
                       request := Some params |} ];
       settled :=
         response ← generateContent params;
         match blockReason response with
         | Some (String c reason) =>
             Throw (ErrorObj ("Speech generation was blocked due to: "
                              +:+ String c reason))
         | _ =>
             match inlineData response with
             | Some (c :: base64Audio) => Normal (c :: base64Audio)
             | _ => Throw (ErrorObj "No audio data received from API.")
             end
         end |}.

(** [Promise.all(promises)]: every promise of the list already exists, so
    all their requests are out; it fulfils with all the values or rejects
    with the first rejection to arrive. *)
Definition rejections {A} (promises : list (Promise A)) : list Exn :=
  omap (λ p, match settled p with Throw e => Some e | Normal _ => None end)
       promises.

Definition fulfilments {A} (promises : list (Promise A)) : list A :=
  omap (λ p, match settled p with Normal a => Some a | Throw _ => None end)
       promises.

Definition Promise_all {A} (promises : list (Promise A)) : Promise (list A) :=
  {| invoked := promises ≫= invoked;
     settled :=
       match rejections promises with
       | [] => Normal (fulfilments promises)
       | e :: others =>
           Throw (default e ((e :: others) !! firstRejected (e :: others)))
       end |}.
End Service.

(** ** Application state *)

Record AppState := {
  documentText : jsstring;
  fileName : jsstring;
  analysisResults : option (gmap ResponseMode jsstring);
  translatedResults : option (gmap ResponseMode jsstring);
  activeTab : ResponseMode;
  displayedLanguage : Language;
  audioSrc : option string;
  audioBlob : option (Blob * Language);
  isAnalyzing : bool;
  isGeneratingAudio : bool;
  isTranslating : bool;
  isParsingPdf : bool;
  error : option string;
  warning : option string;
  isProcessed : bool;
  isLameJsReady : bool;
}.

(** The [useState] setters. *)
Definition setDocumentText (v : jsstring) (st : AppState) : AppState :=
  Build_AppState v (fileName st) (analysisResults st) (translatedResults st)
    (activeTab st) (displayedLanguage st) (audioSrc st) (audioBlob st)
    (isAnalyzing st) (isGeneratingAudio st) (isTranslating st)
    (isParsingPdf st) (error st) (warning st) (isProcessed st)
    (isLameJsReady st).

Definition setFileName (v : jsstring) (st : AppState) : AppState :=
  Build_AppState (documentText st) v (analysisResults st)
    (translatedResults st) (activeTab st) (displayedLanguage st)
    (audioSrc st) (audioBlob st) (isAnalyzing st) (isGeneratingAudio st)
    (isTranslating st) (isParsingPdf st) (error st) (warning st)
    (isProcessed st) (isLameJsReady st).

Definition setAnalysisResults (v : option (gmap ResponseMode jsstring)) (st : AppState) : AppState :=
  Build_AppState (documentText st) (fileName st) v (translatedResults st)
    (activeTab st) (displayedLanguage st) (audioSrc st) (audioBlob st)
    (isAnalyzing st) (isGeneratingAudio st) (isTranslating st)
    (isParsingPdf st) (error st) (warning st) (isProcessed st)
    (isLameJsReady st).

Definition setTranslatedResults (v : option (gmap ResponseMode jsstring)) (st : AppState) : AppState :=
  Build_AppState (documentText st) (fileName st) (analysisResults st) v
    (activeTab st) (displayedLanguage st) (audioSrc st) (audioBlob st)
    (isAnalyzing st) (isGeneratingAudio st) (isTranslating st)
    (isParsingPdf st) (error st) (warning st) (isProcessed st)
    (isLameJsReady st).

Definition setActiveTab (v : ResponseMode) (st : AppState) : AppState :=
  Build_AppState (documentText st) (fileName st) (analysisResults st)
    (translatedResults st) v (displayedLanguage st) (audioSrc st)
    (audioBlob st) (isAnalyzing st) (isGeneratingAudio st)
    (isTranslating st) (isParsingPdf st) (error st) (warning st)
    (isProcessed st) (isLameJsReady st).

Definition setDisplayedLanguage (v : Language) (st : AppState) : AppState :=
  Build_AppState (documentText st) (fileName st) (analysisResults st)
    (translatedResults st) (activeTab st) v (audioSrc st) (audioBlob st)
    (isAnalyzing st) (isGeneratingAudio st) (isTranslating st)
    (isParsingPdf st) (error st) (warning st) (isProcessed st)
    (isLameJsReady st).

Definition setAudioSrc (v : option string) (st : AppState) : AppState :=
  Build_AppState (documentText st) (fileName st) (analysisResults st)
    (translatedResults st) (activeTab st) (displayedLanguage st) v
    (audioBlob st) (isAnalyzing st) (isGeneratingAudio st)
    (isTranslating st) (isParsingPdf st) (error st) (warning st)
    (isProcessed st) (isLameJsReady st).

Definition setAudioBlob (v : option (Blob * Language)) (st : AppState) : AppState :=
  Build_AppState (documentText st) (fileName st) (analysisResults st)
    (translatedResults st) (activeTab st) (displayedLanguage st)
    (audioSrc st) v (isAnalyzing st) (isGeneratingAudio st)
    (isTranslating st) (isParsingPdf st) (error st) (warning st)
    (isProcessed st) (isLameJsReady st).

Definition setIsAnalyzing (v : bool) (st : AppState) : AppState :=
  Build_AppState (documentText st) (fileName st) (analysisResults st)
    (translatedResults st) (activeTab st) (displayedLanguage st)
    (audioSrc st) (audioBlob st) v (isGeneratingAudio st) (isTranslating st)
    (isParsingPdf st) (error st) (warning st) (isProcessed st)
    (isLameJsReady st).

Definition setIsGeneratingAudio (v : bool) (st : AppState) : AppState :=
  Build_AppState (documentText st) (fileName st) (analysisResults st)
    (translatedResults st) (activeTab st) (displayedLanguage st)
    (audioSrc st) (audioBlob st) (isAnalyzing st) v (isTranslating st)
    (isParsingPdf st) (error st) (warning st) (isProcessed st)
    (isLameJsReady st).

Definition setIsTranslating (v : bool) (st : AppState) : AppState :=
  Build_AppState (documentText st) (fileName st) (analysisResults st)
    (translatedResults st) (activeTab st) (displayedLanguage st)
    (audioSrc st) (audioBlob st) (isAnalyzing st) (isGeneratingAudio st) v
    (isParsingPdf st) (error st) (warning st) (isProcessed st)
    (isLameJsReady st).

Definition setIsParsingPdf (v : bool) (st : AppState) : AppState :=
  Build_AppState (documentText st) (fileName st) (analysisResults st)
    (translatedResults st) (activeTab st) (displayedLanguage st)
    (audioSrc st) (audioBlob st) (isAnalyzing st) (isGeneratingAudio st)
    (isTranslating st) v (error st) (warning st) (isProcessed st)
    (isLameJsReady st).

Definition setError (v : option string) (st : AppState) : AppState :=
  Build_AppState (documentText st) (fileName st) (analysisResults st)
    (translatedResults st) (activeTab st) (displayedLanguage st)
    (audioSrc st) (audioBlob st) (isAnalyzing st) (isGeneratingAudio st)
    (isTranslating st) (isParsingPdf st) v (warning st) (isProcessed st)
    (isLameJsReady st).

Definition setWarning (v : option string) (st : AppState) : AppState :=
  Build_AppState (documentText st) (fileName st) (analysisResults st)
    (translatedResults st) (activeTab st) (displayedLanguage st)
    (audioSrc st) (audioBlob st) (isAnalyzing st) (isGeneratingAudio st)
    (isTranslating st) (isParsingPdf st) (error st) v (isProcessed st)
    (isLameJsReady st).

Definition setIsProcessed (v : bool) (st : AppState) : AppState :=
  Build_AppState (documentText st) (fileName st) (analysisResults st)
    (translatedResults st) (activeTab st) (displayedLanguage st)
    (audioSrc st) (audioBlob st) (isAnalyzing st) (isGeneratingAudio st)
    (isTranslating st) (isParsingPdf st) (error st) (warning st) v
    (isLameJsReady st).

(** What a handler run leaves behind: the final state and, for each [await]
    it went through, the service calls that were pending during it. *)
Record Run := {
  final : AppState;
  awaited : list (list Invocation);
}.

(** ** Handlers of [App] *)

(** [s.includes(sub)]. *)
Fixpoint includes (s sub : string) : bool :=
  String.prefix sub s
  || match s with
     | EmptyString => false
     | String _ s' => includes s' sub
     end.

(** [{ [key]: value }] where [value] may be [undefined]. *)
Definition prop (key : ResponseMode) (value : option jsstring)
    (obj : gmap ResponseMode jsstring) : gmap ResponseMode jsstring :=
  match value with
  | Some v => <[key := v]> obj
  | None => obj
  end.

(** [results?.[mode]] when it is a non-empty string. *)
Definition textOf (results : option (gmap ResponseMode jsstring))
    (mode : ResponseMode) : option jsstring :=
  match results ≫= (λ r, r !! mode) with
  | Some (c :: t) => Some (c :: t)
  | _ => None
  end.

Definition TTS_CHARACTER_LIMIT : nat := 4800.

Section Handlers.
Context {E : Environment} {L : LameJs}.

(** The message chosen in the [catch] of [handleAnalysis]. *)
Definition analysisErrorMessage (e : Exn) : string :=
  let errorMessage :=
    "Ocurrió un error al procesar el documento. Por favor, inténtalo de nuevo." in
  match e with
  | ErrorObj (String c m) =>
      let message := String c m in
      if includes (toLowerCase message) "api key"
         || includes (toLowerCase message) "permission denied"
      then "Error de autenticación. Por favor, verifica que la API Key esté configurada correctamente en el entorno de la aplicación."
      else if includes (toLowerCase message) "token"
      then "El documento es demasiado grande y no se pudo procesar. Error: "
           +:+ message
      else errorMessage
  | _ => errorMessage
  end.

Definition modesToGenerate : list ResponseMode :=
  [Completo; Resumido; PuntosClave].

(** [Promise.all(modesToGenerate.map(mode => generateTextAnalysis(text, mode)))] *)
Definition analysisPromises (text : jsstring) : Promise (list jsstring) :=
  Promise_all ((λ mode, generateTextAnalysis text mode) <$> modesToGenerate).

Definition handleAnalysis (text : jsstring) (st : AppState) : Run :=
  if bool_decide (trim text = []) then
    {| final := setError (Some "El documento no puede estar vacío.") st;
       awaited := [] |}
  else
    let st := setIsAnalyzing true st in
    let st := setError None st in
    let st := setWarning None st in
    let st := setAudioSrc None st in
    let st := setAudioBlob None st in
    let st := setAnalysisResults None st in
    let st := setTranslatedResults None st in
    let promise := analysisPromises text in
    let st :=
      match settled promise with
      | Normal results =>
          let newAnalysisResults :=
            prop Completo (results !! 0)
              (prop Resumido (results !! 1)
                 (prop PuntosClave (results !! 2) ∅)) in
          let st := setAnalysisResults (Some newAnalysisResults) st in
          let st := setActiveTab Resumido st in
          let st := setDisplayedLanguage es st in
          setIsProcessed true st
      | Throw e =>
          let st := setError (Some (analysisErrorMessage e)) st in
          setIsProcessed false st
      end in
    {| final := setIsAnalyzing false st; awaited := [invoked promise] |}.

Definition handleTranslate (mode : ResponseMode) (st : AppState) : Run :=
  match textOf (analysisResults st) mode with
  | None =>
      {| final := setError (Some "No hay texto para traducir.") st;
         awaited := [] |}
  | Some spanishText =>
      let st := setIsTranslating true st in
      let st := setError None st in
      let promise := translateText spanishText in
      let st :=
        match settled promise with
        | Normal translatedText =>
            let st :=
              setTranslatedResults
                (Some (<[mode := translatedText]>
                         (default ∅ (translatedResults st)))) st in
            setDisplayedLanguage en st
        | Throw e => setError (Some "No se pudo traducir el texto.") st
        end in
      {| final := setIsTranslating false st; awaited := [invoked promise] |}
  end.

(** [audioBase64Results.map(b64 => ...)]: [atob], the character codes, and
    the byte array made of them. *)
Definition decodeBase64 (b64 : jsstring) : Completion (list N) :=
  byteCharacters ← atob b64;
  Normal (Uint8Array_from byteCharacters).

(** The part of the [try] block after the speech results are in: decode,
    concatenate, encode. *)
Definition processAudio (fuel : nat) (results : Completion (list jsstring))
    : option (Completion Blob) :=
  let combined :=
    audioBase64Results ← results;
    arrayBuffers ← mapM decodeBase64 audioBase64Results;
    combinePcm arrayBuffers in
  match combined with
  | Throw e => Some (Throw e)
  | Normal combinedPcm => createMp3Blob fuel combinedPcm 24000%N 1%N
  end.

(** How the [try] block of [handleGenerateAudio] ends: with the early
    [return] for an empty chunk list, or past the [await] with the MP3
    blob or an exception. *)
Inductive AudioAttempt :=
| NoChunks
| Attempted (pending : list Invocation) (outcome : Completion Blob).

Definition tryGenerateAudio (fuel : nat) (textToSpeak : jsstring)
    (language : Language) : option AudioAttempt :=
  if bool_decide (length textToSpeak ≤ TTS_CHARACTER_LIMIT) then
    let promise := generateSpeech textToSpeak language in
    outcome ← processAudio fuel
                ((λ singleResult, [singleResult]) <$> settled promise);
    Some (Attempted (invoked promise) outcome)
  else
    chunks ← splitTextIntoChunks fuel textToSpeak TTS_CHARACTER_LIMIT;
    if bool_decide (length chunks = 0) then Some NoChunks
    else
      let promise :=
        Promise_all ((λ chunk, generateSpeech chunk language) <$> chunks) in
      outcome ← processAudio fuel (settled promise);
      Some (Attempted (invoked promise) outcome).

(** [language === 'es' ? analysisResults?.[mode] : translatedResults?.[mode]],
    when it is a non-empty string. *)
Definition textToSpeakOf (mode : ResponseMode) (language : Language)
    (st : AppState) : option jsstring :=
  match language with
  | es => textOf (analysisResults st) mode
  | en => textOf (translatedResults st) mode
  end.

Definition handleGenerateAudio (fuel : nat) (mode : ResponseMode)
    (language : Language) (st : AppState) : option Run :=
  match textToSpeakOf mode language st with
  | None =>
      Some {| final :=
                setError
                  (Some ("No hay texto en "
                         +:+ match language with es => "español" | en => "inglés" end
                         +:+ " para generar el audio.")) st;
              awaited := [] |}
  | Some textToSpeak =>
      if negb (isLameJsReady st) then
        Some {| final :=
                  setError (Some "La librería de codificación de audio no está lista. Por favor, inténtalo de nuevo en un momento.") st;
                awaited := [] |}
      else
        let st := setIsGeneratingAudio true st in
        let st := setError None st in
        let st := setWarning None st in
        let st := setAudioSrc None st in
        let st := setAudioBlob None st in
        attempt ← tryGenerateAudio fuel textToSpeak language;
        Some
          match attempt with
          | NoChunks =>
              let st :=
                setWarning (Some "No se pudo procesar el texto para generar audio.") st in
              let st := setIsGeneratingAudio false st in
              {| final := setIsGeneratingAudio false st; awaited := [] |}
          | Attempted pending (Normal mp3Blob) =>
              let audioUrl := createObjectURL mp3Blob in
              let st := setAudioSrc (Some audioUrl) st in
              let st := setAudioBlob (Some (mp3Blob, language)) st in
              {| final := setIsGeneratingAudio false st; awaited := [pending] |}
          | Attempted pending (Throw e) =>
              let st :=
                setError (Some "No se pudo generar el audio para este texto.") st in
              {| final := setIsGeneratingAudio false st; awaited := [pending] |}
          end
  end.

(** [extractTextFromPdf]: the promise rejects with a string in both of its
    failure paths. *)
Definition pageText (items : list jsstring) : jsstring :=
  match items with
  | [] => []
  | first :: others => first ++ (others ≫= (λ item, 32%N :: item))
  end.

Definition extractTextFromPdf (file : File) : Completion jsstring :=
  match readAsArrayBuffer file with
  | None => Throw (StringValue "Ocurrió un error al leer el archivo PDF.")
  | Some typedarray =>
      match pdfTextItems typedarray with
      | Normal pages =>
          Normal (foldl (λ fullText items, fullText ++ pageText items ++ [10; 10]%N)
                        [] pages)
      | Throw _ =>
          Throw (StringValue "No se pudo extraer el texto del PDF. El archivo podría estar dañado o protegido.")
      end
  end.

Definition handleFileChange (files : option File) (st : AppState) : AppState :=
  match files with
  | None => st
  | Some file =>
      let st := setError None st in
      let st := setWarning None st in
      let st := setFileName [] st in
      let st := setDocumentText [] st in
      if bool_decide (file_type file = "text/plain") then
        match readAsText file with
        | Some result =>
            let st := setDocumentText result st in
            setFileName (file_name file) st
        | None => setError (Some "Ocurrió un error al leer el archivo .txt.") st
        end
      else if bool_decide (file_type file = "application/pdf") then
        let st := setIsParsingPdf true st in
        let st := setFileName (file_name file) st in
        let st :=
          match extractTextFromPdf file with
          | Normal text => setDocumentText text st
          | Throw err =>
              let st :=
                setError
                  (Some match err with
                        | StringValue s => s
                        | _ => "Error desconocido al procesar el PDF."
                        end) st in
              setFileName [] st
          end in
        setIsParsingPdf false st
      else
        setError (Some "Por favor, sube un archivo .txt o .pdf.") st
  end.
End Handlers.

(** ** Request traces *)

(** The API requests of a group of pending calls. *)
Definition requestsOf (pending : list Invocation) : list GenerateContentParameters :=
  omap request pending.

Inductive Event :=
| Begin (r : GenerateContentParameters)
| End_ (r : GenerateContentParameters).

(** The requests pending during one [await] have all begun before the
    handler suspends; they complete afterwards, in any order. *)
Inductive awaitTrace : list GenerateContentParameters → list Event → Prop :=
| awaitTrace_intro reqs completions :
    completions ≡ₚ (End_ <$> reqs) →
    awaitTrace reqs ((Begin <$> reqs) ++ completions).

Definition runTrace (run : Run) (tr : list Event) : Prop :=
  ∃ trs, Forall2 awaitTrace (requestsOf <$> awaited run) trs ∧ tr = concat trs.

(** A trace is sequential when no request begins while another is in
    flight; [inFlight] counts the open requests. *)
Fixpoint sequentialFrom (inFlight : nat) (tr : list Event) : bool :=
  match tr with
  | [] => true
  | Begin _ :: tr' => bool_decide (inFlight = 0) && sequentialFrom 1 tr'
  | End_ _ :: tr' => sequentialFrom (inFlight - 1) tr'
  end.

Definition sequential (tr : list Event) : bool := sequentialFrom 0 tr.

(** ** Vocabulary of the statements *)

(** A continuation of the matcher that only ever consumes input. *)
Definition consumes (k : jsstring → option jsstring) : Prop :=
  ∀ s rest, k s = Some rest → rest `suffix_of` s.

(** The two character classes of the sentence pattern. *)
Definition isTerminator (c : N) : bool := bool_decide (c ∈ terminators).
Definition notTerminator (c : N) : bool := negb (isTerminator c).

(** Every chunk has at most [maxLength] code units. *)
Definition chunkBound (maxLength : nat) (chunks : list jsstring) : Prop :=
  Forall (λ chunk, length chunk ≤ maxLength) chunks.

(** A string without its white space. *)
Definition nonWhiteSpace (s : jsstring) : jsstring :=
  filter (λ c, isWhiteSpace c = false) s.

(** Invariant of the sentence loop for the chunk bound. *)
Definition loopBound (maxLength : nat) (st : list jsstring * jsstring) : Prop :=
  chunkBound maxLength st.1 ∧ length st.2 ≤ maxLength.

(** At most one API request pending during an [await]. *)
Definition singleRequest (pending : list Invocation) : Prop :=
  length (requestsOf pending) ≤ 1.


(** ** Fixtures *)

Definition echoEnvironment : Environment := {|
  generateContent := λ params,
    Normal {| responseText := Some (body params); blockReason := None;
              inlineData := Some (js "UklGRg==") |};
  firstRejected := λ _, 0;
  cleanTextForSpeech := trim;
  modeValue := λ mode,
    match mode with
    | Resumido => "Resumido"
    | Completo => "Completo"
    | PuntosClave => "Puntos Clave"
    end;
  toLowerCase := λ s, s;
  atob := λ b64, Normal b64;
  createObjectURL := λ _, "blob:audio";
  readAsText := λ _, Some (js "contenido");
  readAsArrayBuffer := λ _, None;
  pdfTextItems := λ _, Normal [];
|}.

Definition offlineEnvironment : Environment := {|
  generateContent := λ _, Throw (ErrorObj "Failed to fetch");
  firstRejected := λ _, 0;
  cleanTextForSpeech := trim;
  modeValue := λ _, "";
  toLowerCase := λ s, s;
  atob := λ b64, Normal b64;
  createObjectURL := λ _, "blob:audio";
  readAsText := λ _, None;
  readAsArrayBuffer := λ _, None;
  pdfTextItems := λ _, Throw OtherValue;
|}.

Definition constantEncoder : LameJs := {|
  Mp3Encoder := unit;
  newMp3Encoder := λ _ _ _, tt;
  encodeBuffer := λ _ _, (tt, [255; 251]%N);
  flush := λ _, [];
|}.

(** The state [App] starts in, and one with an analysis on screen and the
    encoder loaded. *)
Definition initialState : AppState := {|
  documentText := []; fileName := []; analysisResults := None;
  translatedResults := None; activeTab := Resumido; displayedLanguage := es;
  audioSrc := None; audioBlob := None; isAnalyzing := false;
  isGeneratingAudio := false; isTranslating := false; isParsingPdf := false;
  error := None; warning := None; isProcessed := false; isLameJsReady := false;
|}.

Definition analysedState : AppState := {|
  documentText := js "Hola. Que tal?"; fileName := [];
  analysisResults := Some {[ Resumido := js "Hola. Que tal?" ]};
  translatedResults := None; activeTab := Resumido; displayedLanguage := es;
  audioSrc := None; audioBlob := None; isAnalyzing := false;
  isGeneratingAudio := false; isTranslating := false; isParsingPdf := false;
  error := None; warning := None; isProcessed := true; isLameJsReady := true;
|}.

(** A sentence of exactly 4800 code units. *)
Definition longSentence : jsstring := replicate 4799 97%N ++ js ".".

(** ** Further code of [App.tsx] *)

(** [s.lastIndexOf(c)] for a one-character [c]; [None] stands for -1. *)
Fixpoint lastIndexFrom (i : nat) (s : jsstring) (c : N) (found : option nat)
    : option nat :=
  match s with
  | [] => found
  | x :: t => lastIndexFrom (S i) t c (if bool_decide (x = c) then Some i else found)
  end.

Definition lastIndexOf (s : jsstring) (c : N) : option nat :=
  lastIndexFrom 0 s c None.

Definition languageCode (language : Language) : jsstring :=
  match language with
  | es => js "es"
  | en => js "en"
  end.

(** [fileName ? fileName.substring(0, fileName.lastIndexOf('.')) || fileName : 'analisis-de-texto'];
    [substring] reads the -1 of a missing dot as 0. *)
Definition baseFileName (fileName : jsstring) : jsstring :=
  if bool_decide (fileName = []) then js "analisis-de-texto"
  else
    let cut := substring fileName 0 (default 0 (lastIndexOf fileName 46%N)) in
    if bool_decide (cut = []) then fileName else cut.

(** The anchor element [handleDownloadAudio] creates and clicks. *)
Record Download := { href : string; download : jsstring }.

Definition handleDownloadAudio (st : AppState) : option Download :=
  match audioSrc st, audioBlob st with
  | Some (String c src), Some (_, language) =>
      let downloadFileName :=
        baseFileName (fileName st) ++ js "_audio_" ++ languageCode language
          ++ js ".mp3" in
      Some {| href := String c src; download := downloadFileName |}
  | _, _ => None
  end.

(** The state of [App] outside [AppState] that [handleReset] writes: the
    input mode and the value of the file input, when it is mounted. *)
Inductive InputMode := Paste | Upload.

Record Ui := {
  appState : AppState;
  inputMode : InputMode;
  fileInput : option jsstring;
}.

Definition handleReset (ui : Ui) : Ui :=
  let st := appState ui in
  let st := setIsProcessed false st in
  let st := setDocumentText [] st in
  let st := setAnalysisResults None st in
  let st := setTranslatedResults None st in
  let st := setAudioSrc None st in
  let st := setAudioBlob None st in
  let st := setError None st in
  let st := setWarning None st in
  let st := setFileName [] st in
  let st := setActiveTab Resumido st in
  {| appState := st; inputMode := Paste;
     fileInput := match fileInput ui with Some _ => Some [] | None => None end |}.

(** [onClick] of a [ResultTab]. *)
Definition resultTabClick (mode : ResponseMode) (st : AppState) : AppState :=
  let st := setActiveTab mode st in
  let st := setAudioSrc None st in
  let st := setAudioBlob None st in
  let st := setWarning None st in
  setDisplayedLanguage es st.

(** [!!translatedResults?.[activeTab]] *)
Definition isEnglishTranslated (st : AppState) : bool :=
  bool_decide (is_Some (textOf (translatedResults st) (activeTab st))).

(** [onChange] of the text area. *)
Definition textAreaChange (value : jsstring) (st : AppState) : AppState :=
  let st := setDocumentText value st in
  setFileName [] st.

Section Buttons.
Context {E : Environment}.

(** [onClick] of the translate button. *)
Definition translateButtonClick (st : AppState) : Run :=
  match displayedLanguage st with
  | es =>
      if isEnglishTranslated st
      then {| final := setDisplayedLanguage en st; awaited := [] |}
      else handleTranslate (activeTab st) st
  | en => {| final := setDisplayedLanguage es st; awaited := [] |}
  end.
End Buttons.

(** ** Further vocabulary *)

(** Block [j] of a list cut every [size] elements. *)
Definition blockAt {A} (l : list A) (size j : nat) : list A :=
  take size (drop (j * size) l).

(** One turn of the block loop of [createMp3Blob], on the encoder and
    [mp3Data]. *)
Definition encodeStep {L : LameJs} (st : Mp3Encoder * list (list N))
    (sampleChunk : list Z) : Mp3Encoder * list (list N) :=
  let enc := encodeBuffer st.1 sampleChunk in
  (enc.1, if bool_decide (0 < length enc.2) then st.2 ++ [enc.2] else st.2).


(** A sentence as the pattern describes it: code units other than
    terminators, at least one, then terminators, at least one. *)
Definition sentenceShape (sentence : jsstring) : Prop :=
  ∃ body punct,
    sentence = body ++ punct
    ∧ body ≠ [] ∧ Forall (λ c, notTerminator c = true) body
    ∧ punct ≠ [] ∧ Forall (λ c, isTerminator c = true) punct.

(** [group.join(' ')]. *)
Definition joinWithSpace (group : list jsstring) : jsstring :=
  match group with
  | [] => []
  | first :: others => first ++ (others ≫= (λ item, 32%N :: item))
  end.

(** Slice [j] of a string cut every [maxLength] code units. *)
Definition sliceAt (s : jsstring) (maxLength j : nat) : jsstring :=
  take maxLength (drop (j * maxLength) s).

(** The sentence loop groups the sentences: every chunk pushed, and the
    chunk under construction, is a group of trimmed sentences joined by
    single spaces. *)
Definition groupedBy (st : list jsstring * jsstring)
    (groups : list (list jsstring)) (current : list jsstring) : Prop :=
  st.1 = joinWithSpace <$> groups
  ∧ st.2 = joinWithSpace current
  ∧ Forall (λ sentence, sentence ≠ []) current.

(** ** Further state of [App] *)

Definition setIsLameJsReady (v : bool) (st : AppState) : AppState :=
  Build_AppState (documentText st) (fileName st) (analysisResults st)
    (translatedResults st) (activeTab st) (displayedLanguage st)
    (audioSrc st) (audioBlob st) (isAnalyzing st) (isGeneratingAudio st)
    (isTranslating st) (isParsingPdf st) (error st) (warning st)
    (isProcessed st) v.

(** [displayedLanguage === 'en' ? translatedResults?.[activeTab] : analysisResults?.[activeTab]] *)
Definition currentTextToDisplay (st : AppState) : option jsstring :=
  match displayedLanguage st with
  | en => translatedResults st ≫= (λ r, r !! activeTab st)
  | es => analysisResults st ≫= (λ r, r !! activeTab st)
  end.

(** [currentTextToDisplay || 'Cargando...'], the text the results view
    hands to its two [replace] calls. *)
Definition shownText (st : AppState) : jsstring :=
  match currentTextToDisplay st with
  | Some (c :: t) => c :: t
  | _ => js "Cargando..."
  end.

(** ** The handlers around their [await]

    An [async] handler runs up to its [await] when its event arrives; the
    rest runs once what it waits for has settled, in the state the page
    has by then: after the [await] the handlers only call setters, with
    new values or, for [setTranslatedResults], with a function of the
    previous value.  [handleFileChange] waits in the same way for its
    [FileReader] or for [extractTextFromPdf]. *)

(** A handler suspended at its [await], or a file being read. *)
Inductive Suspended :=
| AwaitAnalysis (promise : Promise (list jsstring))
| AwaitTranslation (mode : ResponseMode) (promise : Promise jsstring)
| AwaitSpeech (language : Language) (pending : list Invocation)
    (outcome : Completion Blob)
| ReadingText (file : File)
| ReadingPdf (file : File).

Section Suspension.
Context {E : Environment} {L : LameJs}.

Definition handleAnalysis_begin (text : jsstring) (st : AppState)
    : AppState * option Suspended :=
  if bool_decide (trim text = []) then
    (setError (Some "El documento no puede estar vacío.") st, None)
  else
    let st := setIsAnalyzing true st in
    let st := setError None st in
    let st := setWarning None st in
    let st := setAudioSrc None st in
    let st := setAudioBlob None st in
    let st := setAnalysisResults None st in
    let st := setTranslatedResults None st in
    (st, Some (AwaitAnalysis (analysisPromises text))).

Definition handleTranslate_begin (mode : ResponseMode) (st : AppState)
    : AppState * option Suspended :=
  match textOf (analysisResults st) mode with
  | None => (setError (Some "No hay texto para traducir.") st, None)
  | Some spanishText =>
      let st := setIsTranslating true st in
      let st := setError None st in
      (st, Some (AwaitTranslation mode (translateText spanishText)))
  end.

(** The chunks are made and the speech calls issued before the [await];
    decoding and encoding come after it. *)
Definition handleGenerateAudio_begin (fuel : nat) (mode : ResponseMode)
    (language : Language) (st : AppState)
    : option (AppState * option Suspended) :=
  match textToSpeakOf mode language st with
  | None =>
      Some (setError
              (Some ("No hay texto en "
                     +:+ match language with es => "español" | en => "inglés" end
                     +:+ " para generar el audio.")) st,
            None)
  | Some textToSpeak =>
      if negb (isLameJsReady st) then
        Some (setError (Some "La librería de codificación de audio no está lista. Por favor, inténtalo de nuevo en un momento.") st,
              None)
      else
        let st := setIsGeneratingAudio true st in
        let st := setError None st in
        let st := setWarning None st in
        let st := setAudioSrc None st in
        let st := setAudioBlob None st in
        attempt ← tryGenerateAudio fuel textToSpeak language;
        Some
          match attempt with
          | NoChunks =>
              let st :=
                setWarning (Some "No se pudo procesar el texto para generar audio.") st in
              let st := setIsGeneratingAudio false st in
              (setIsGeneratingAudio false st, None)
          | Attempted pending outcome =>
              (st, Some (AwaitSpeech language pending outcome))
          end
  end.

Definition handleFileChange_begin (files : option File) (st : AppState)
    : AppState * option Suspended :=
  match files with
  | None => (st, None)
  | Some file =>
      let st := setError None st in
      let st := setWarning None st in
      let st := setFileName [] st in
      let st := setDocumentText [] st in
      if bool_decide (file_type file = "text/plain") then
        (st, Some (ReadingText file))
      else if bool_decide (file_type file = "application/pdf") then
        let st := setIsParsingPdf true st in
        let st := setFileName (file_name file) st in
        (st, Some (ReadingPdf file))
      else
        (setError (Some "Por favor, sube un archivo .txt o .pdf.") st, None)
  end.

(** What a suspended handler does when it goes on, in the state [st] of
    that moment. *)
Definition resume (suspended : Suspended) (st : AppState) : AppState :=
  match suspended with
  | AwaitAnalysis promise =>
      let st :=
        match settled promise with
        | Normal results =>
            let newAnalysisResults :=
              prop Completo (results !! 0)
                (prop Resumido (results !! 1)
                   (prop PuntosClave (results !! 2) ∅)) in
            let st := setAnalysisResults (Some newAnalysisResults) st in
            let st := setActiveTab Resumido st in
            let st := setDisplayedLanguage es st in
            setIsProcessed true st
        | Throw e =>
            let st := setError (Some (analysisErrorMessage e)) st in
            setIsProcessed false st
        end in
      setIsAnalyzing false st
  | AwaitTranslation mode promise =>
      let st :=
        match settled promise with
        | Normal translatedText =>
            let st :=
              setTranslatedResults
                (Some (<[mode := translatedText]>
                         (default ∅ (translatedResults st)))) st in
            setDisplayedLanguage en st
        | Throw e => setError (Some "No se pudo traducir el texto.") st
        end in
      setIsTranslating false st
  | AwaitSpeech language pending outcome =>
      let st :=
        match outcome with
        | Normal mp3Blob =>
            let audioUrl := createObjectURL mp3Blob in
            let st := setAudioSrc (Some audioUrl) st in
            setAudioBlob (Some (mp3Blob, language)) st
        | Throw e =>
            setError (Some "No se pudo generar el audio para este texto.") st
        end in
      setIsGeneratingAudio false st
  | ReadingText file =>
      match readAsText file with
      | Some result =>
          let st := setDocumentText result st in
          setFileName (file_name file) st
      | None => setError (Some "Ocurrió un error al leer el archivo .txt.") st
      end
  | ReadingPdf file =>
      let st :=
        match extractTextFromPdf file with
        | Normal text => setDocumentText text st
        | Throw err =>
            let st :=
              setError
                (Some match err with
                      | StringValue s => s
                      | _ => "Error desconocido al procesar el PDF."
                      end) st in
            setFileName [] st
        end in
      setIsParsingPdf false st
  end.

(** The translate button, up to the [await] of [handleTranslate]. *)
Definition translateButtonClick_begin (st : AppState)
    : AppState * option Suspended :=
  match displayedLanguage st with
  | es =>
      if isEnglishTranslated st then (setDisplayedLanguage en st, None)
      else handleTranslate_begin (activeTab st) st
  | en => (setDisplayedLanguage es st, None)
  end.

(** ** Sessions of [App]

    The events of the page: the callbacks of the script loader and the
    controls of the two views, each with the handler call of its JSX.  The
    controls are taken as always there and enabled, so a session may hold
    events that the page, which hides or disables some controls, leaves
    out. *)
Inductive PageEvent :=
| PdfJsNotInitialised
| PdfJsNotLoaded
| LameJsLoaded
| LameJsNotLoaded
| TextAreaChange (value : jsstring)
| FileChange (files : option File)
| AnalyseClick
| ResetClick (mode : InputMode) (input : option jsstring)
| ResultTabClick (mode : ResponseMode)
| TranslateClick
| AudioClick (language : Language).

Definition handleEvent (fuel : nat) (event : PageEvent) (st : AppState)
    : option (AppState * option Suspended) :=
  match event with
  | PdfJsNotInitialised =>
      Some (setError (Some "La librería PDF se cargó, pero no se inicializó correctamente.") st,
            None)
  | PdfJsNotLoaded =>
      Some (setError (Some "No se pudo cargar la librería para leer PDFs. Revisa tu conexión a internet.") st,
            None)
  | LameJsLoaded => Some (setIsLameJsReady true st, None)
  | LameJsNotLoaded =>
      Some (setError (Some "No se pudo cargar la librería de codificación de audio.") st,
            None)
  | TextAreaChange value => Some (textAreaChange value st, None)
  | FileChange files => Some (handleFileChange_begin files st)
  | AnalyseClick => Some (handleAnalysis_begin (documentText st) st)
  | ResetClick mode input =>
      Some (appState (handleReset {| appState := st; inputMode := mode;
                                     fileInput := input |}),
            None)
  | ResultTabClick mode => Some (resultTabClick mode st, None)
  | TranslateClick => Some (translateButtonClick_begin st)
  | AudioClick language =>
      handleGenerateAudio_begin fuel (activeTab st) language st
  end.

(** The page between two tasks of the event loop: its state and the
    handlers that wait.  One step is an event, handled up to the handler's
    [await], or one waiting handler going on to its end; the waiting
    handlers go on in any order. *)
Definition Page : Type := AppState * list Suspended.

Inductive Action :=
| Occurs (event : PageEvent)
| Settles (i : nat).

Definition act (fuel : nat) (action : Action) (page : Page) : option Page :=
  match action with
  | Occurs event =>
      match handleEvent fuel event page.1 with
      | Some (st, suspended) => Some (st, page.2 ++ option_list suspended)
      | None => None
      end
  | Settles i =>
      match page.2 !! i with
      | Some suspended => Some (resume suspended page.1, delete i page.2)
      | None => None
      end
  end.

Definition step (page page' : Page) : Prop :=
  ∃ fuel action, act fuel action page = Some page'.

Fixpoint session (fuel : nat) (actions : list Action) (page : Page)
    : option Page :=
  match actions with
  | [] => Some page
  | action :: actions' =>
      match act fuel action page with
      | Some page' => session fuel actions' page'
      | None => None
      end
  end.

(** Whether [event] is a control of the results view that the page shows
    enabled in [st]: the view is rendered when [isProcessed]; the translate
    button is disabled while [isTranslating], an audio button while
    [isGeneratingAudio] or without a text in its language. *)
Definition resultsViewControl (event : PageEvent) (st : AppState) : bool :=
  isProcessed st
  && match event with
     | ResetClick _ _ | ResultTabClick _ => true
     | TranslateClick => negb (isTranslating st)
     | AudioClick language =>
         negb (isGeneratingAudio st
               || negb (bool_decide
                          (is_Some (textToSpeakOf (activeTab st) language st))))
     | _ => false
     end.

(** A session in the results view: every event in it is an enabled
    control at its moment. *)
Fixpoint resultsViewSession (fuel : nat) (actions : list Action) (page : Page)
    : option Page :=
  match actions with
  | [] => Some page
  | action :: actions' =>
      if match action with
         | Occurs event => resultsViewControl event page.1
         | Settles _ => true
         end
      then
        match act fuel action page with
        | Some page' => resultsViewSession fuel actions' page'
        | None => None
        end
      else None
  end.

(** The pages of the sessions that start with the page. *)
Definition reachable (page : Page) : Prop := rtc step (initialState, []) page.
End Suspension.

(** A session for the examples: a text is typed, the encoder script
    arrives, the text is analysed. *)
Definition typedState : AppState :=
  setIsLameJsReady true (textAreaChange (js "Hola. Que tal?") initialState).

Definition analysedSession : AppState :=
  final (handleAnalysis (E := echoEnvironment) (documentText typedState)
           typedState).

(** The session above after a click on the translate button. *)
Definition translatedSession : AppState :=
  final (translateButtonClick (E := echoEnvironment) analysedSession).

(** The same session as the events of the page. *)
Definition analysedActions : list Action :=
  [Occurs (TextAreaChange (js "Hola. Que tal?")); Occurs LameJsLoaded;
   Occurs AnalyseClick; Settles 0].

Definition spokenActions : list Action :=
  analysedActions ++ [Occurs (AudioClick es); Settles 0].

Definition spokenState : AppState :=
  default initialState
    (fst <$> session (E := echoEnvironment) (L := constantEncoder) 10
               spokenActions (initialState, [])).

(** An environment that answers a translation with the empty string. *)
Definition silentTranslator : Environment := {|
  generateContent := λ params,
    Normal {| responseText :=
                if bool_decide (instruction params = "Traduce el siguiente texto de español a inglés. Mantén el formato y el tono del texto original.")
                then Some [] else Some (body params);
              blockReason := None; inlineData := None |};
  firstRejected := λ _, 0;
  cleanTextForSpeech := trim;
  modeValue := λ _, EmptyString;
  toLowerCase := λ s, s;
  atob := λ b64, Normal b64;
  createObjectURL := λ _, "blob:audio";
  readAsText := λ _, None;
  readAsArrayBuffer := λ _, None;
  pdfTextItems := λ _, Throw OtherValue;
|}.

Definition silentSession : AppState :=
  final (handleAnalysis (E := silentTranslator) (documentText typedState)
           typedState).

(** A PDF of [n] pages without text items, as a scan gives. *)
Definition scannedPages (n : nat) : list (list jsstring) := replicate n [].

(** An environment whose PDFs are scans of two pages. *)
Definition scannerEnvironment : Environment := {|
  generateContent := λ params,
    Normal {| responseText := Some (body params); blockReason := None;
              inlineData := None |};
  firstRejected := λ _, 0;
  cleanTextForSpeech := trim;
  modeValue := λ _, "";
  toLowerCase := λ s, s;
  atob := λ b64, Normal b64;
  createObjectURL := λ _, "blob:audio";
  readAsText := λ _, None;
  readAsArrayBuffer := λ _, Some [];
  pdfTextItems := λ _, Normal (scannedPages 2);
|}.

Definition scanFile : File :=
  {| file_type := "application/pdf"; file_name := js "scan.pdf"; file_id := 0 |}.

(** Every text item of every page is white space only. *)
Definition blankPages (pages : list (list jsstring)) : Prop :=
  Forall (Forall (Forall (λ c, isWhiteSpace c = true))) pages.

(** A handler run without anything in between: the part before the
    [await], then the rest at once. *)
Definition finish {E : Environment} (begun : AppState * option Suspended)
    : AppState :=
  match begun.2 with
  | Some suspended => resume suspended begun.1
  | None => begun.1
  end.

(** * Properties *)

(** ** Worked inputs *)

Example split_sentences :
  splitTextIntoChunks 10 (js "Hola. Que tal? Bien!") 10
  = Some [js "Hola."; js "Que tal?"; js "Bien!"].
Proof. vm_compute. reflexivity. Qed.

Example split_joined :
  splitTextIntoChunks 20 (js "Hola. Que tal? Bien!") 14
  = Some [js "Hola. Que tal?"; js "Bien!"].
Proof. vm_compute. reflexivity. Qed.

Example split_no_sentence :
  splitTextIntoChunks 10 (js "abcdefgh") 3 = Some [js "abc"; js "def"; js "gh"].
Proof. vm_compute. reflexivity. Qed.

Example split_long_sentence :
  splitTextIntoChunks 10 (js "a. cdefgh. i.") 3
  = Some [js "a."; js "cde"; js "fgh"; js "."; js "i."].
Proof. vm_compute. reflexivity. Qed.

Example split_zero_maxLength : splitTextIntoChunks 1000 (js "abc") 0 = None.
Proof. vm_compute. reflexivity. Qed.

Example combine_three : combinePcm [[1; 2]; []; [3]]%N = Normal [1; 2; 3]%N.
Proof. vm_compute. reflexivity. Qed.

Example samples_little_endian : samplesOf [1; 0; 255; 255; 0; 128]%N = [1; -1; -32768]%Z.
Proof. vm_compute. reflexivity. Qed.

Example encode_two_blocks :
  createMp3Blob (L := constantEncoder) 3 (replicate 4608 0%N) 24000%N 1%N
  = Some (Normal {| blobParts := [[255; 251]; [255; 251]]%N;
                    blobType := "audio/mpeg" |}).
Proof. vm_compute. reflexivity. Qed.

Example encode_odd_length :
  createMp3Blob (L := constantEncoder) 3 [1; 2; 3]%N 24000%N 1%N
  = Some (Throw (ErrorObj "byte length of Int16Array should be a multiple of 2")).
Proof. vm_compute. reflexivity. Qed.

Example analysis_offline :
  error (final (handleAnalysis (E := offlineEnvironment) (js "Hola.") initialState))
  = Some "Ocurrió un error al procesar el documento. Por favor, inténtalo de nuevo.".
Proof. vm_compute. reflexivity. Qed.

Example analysis_blank :
  handleAnalysis (E := echoEnvironment) (js "  ") initialState
  = {| final := setError (Some "El documento no puede estar vacío.") initialState;
       awaited := [] |}.
Proof. vm_compute. reflexivity. Qed.

(** ** Loops *)

Lemma while_more_fuel {St} (cond : St → bool) body fuel fuel' (st st' : St) :
  while fuel cond body st = Some st' → fuel ≤ fuel' →
  while fuel' cond body st = Some st'.
Proof.
  revert fuel' st. induction fuel as [|fuel IH]; intros fuel' st Hrun Hle.
  - discriminate.
  - destruct fuel' as [|fuel']; [lia|]. simpl in *.
    destruct (cond st); [|done]. apply IH; [done | lia].
Qed.

(** A loop whose index grows by [step >= 1] in every iteration and whose
    test fails once the index reaches [bound] stops after at most
    [ceil ((bound - index) / step)] iterations. *)
Lemma while_counter {St} (index : St → nat) cond body (bound step : nat) :
  1 ≤ step →
  (∀ st, cond st = true → index st < bound) →
  (∀ st, index (body st) = index st + step) →
  ∀ fuel (st : St),
    (bound - index st + (step - 1)) `div` step < fuel →
    is_Some (while fuel cond body st).
Proof.
  intros Hstep Hcond Hbody fuel.
  induction fuel as [|fuel IH]; intros st Hfuel; [lia|].
  simpl. destruct (cond st) eqn:Hc; [|by eexists].
  apply IH. rewrite Hbody. apply Hcond in Hc.
  assert (bound - index st + (step - 1)
          = (bound - (index st + step) + (step - 1)) + 1 * step
          ∨ bound - (index st + step) + (step - 1) < step) as [Heq | Hlt] by lia.
  - rewrite Heq, Nat.div_add in Hfuel by lia. lia.
  - rewrite Nat.div_small by lia.
    assert (1 ≤ (bound - index st + (step - 1)) `div` step)
      by (apply Nat.div_le_lower_bound; lia).
    lia.
Qed.

(** A loop whose body leaves the test true never stops. *)
Lemma while_stuck {St} (cond : St → bool) body (st : St) :
  cond st = true → body st = st → ∀ fuel, while fuel cond body st = None.
Proof.
  intros Hc Hb fuel. induction fuel as [|fuel IH]; [done|].
  simpl. by rewrite Hc, Hb.
Qed.

(** ** The slicing loop *)

Lemma substring_slice (s : jsstring) i m :
  i ≤ length s → substring s i (i + m) = take m (drop i s).
Proof.
  intros Hi. unfold substring.
  rewrite (Nat.min_l i (length s)) by lia.
  destruct (decide (i + m ≤ length s)) as [Hle | Hgt].
  - rewrite (Nat.min_l (i + m)), Nat.min_l, Nat.max_r by lia.
    f_equal. lia.
  - rewrite (Nat.min_r (i + m)), Nat.min_l, Nat.max_r by lia.
    rewrite !take_ge; [done | rewrite length_drop; lia ..].
Qed.

Lemma slices_spec (s : jsstring) maxLength fuel :
  ∀ i chunks st',
    while fuel (sliceCond s) (sliceBody s maxLength) (i, chunks) = Some st' →
    ∃ pieces,
      st'.2 = chunks ++ pieces ∧ chunkBound maxLength pieces
      ∧ concat pieces = drop i s
      ∧ (1 ≤ maxLength → Forall (λ piece, piece ≠ []) pieces).
Proof.
  induction fuel as [|fuel IH]; intros i chunks st' Hrun; [done|].
  simpl in Hrun. unfold sliceCond at 1 in Hrun. simpl in Hrun.
  case_bool_decide as Hi.
  - unfold sliceBody at 2 in Hrun. simpl in Hrun.
    apply IH in Hrun as (pieces & Heq & Hbound & Hcat & Hne).
    rewrite substring_slice in Heq by lia.
    exists (take maxLength (drop i s) :: pieces). repeat split.
    + by rewrite Heq, <- app_assoc.
    + constructor; [|done]. rewrite length_take. lia.
    + simpl. rewrite Hcat, <- (drop_drop s maxLength i). apply take_drop.
    + intros Hm. constructor; [|by apply Hne].
      intros Hnil. apply (f_equal length) in Hnil.
      rewrite length_take, length_drop in Hnil. simpl in Hnil. lia.
  - injection Hrun as <-. exists []. repeat split.
    + by rewrite app_nil_r.
    + constructor.
    + by rewrite drop_ge by lia.
    + constructor.
Qed.

Lemma pushSlices_spec fuel (s : jsstring) maxLength chunks chunks' :
  pushSlices fuel s maxLength chunks = Some chunks' →
  ∃ pieces,
    chunks' = chunks ++ pieces ∧ chunkBound maxLength pieces
    ∧ concat pieces = s
    ∧ (1 ≤ maxLength → Forall (λ piece, piece ≠ []) pieces).
Proof.
  unfold pushSlices. intros Hrun.
  destruct (while _ _ _ _) as [st'|] eqn:Hw; [|done].
  simpl in Hrun. injection Hrun as <-.
  apply slices_spec in Hw as (pieces & ? & ? & ? & ?). by exists pieces.
Qed.

(** The loop makes [ceil (length s / maxLength)] iterations. *)
Lemma pushSlices_terminates fuel (s : jsstring) maxLength chunks :
  1 ≤ maxLength →
  (length s + (maxLength - 1)) `div` maxLength < fuel →
  is_Some (pushSlices fuel s maxLength chunks).
Proof.
  intros Hm Hfuel. unfold pushSlices.
  destruct (while_counter (St := nat * list jsstring) fst
              (sliceCond s) (sliceBody s maxLength) (length s) maxLength)
    with (fuel := fuel) (st := (0, chunks)) as [st' Hst']; try done.
  - intros st Hc. unfold sliceCond in Hc. by apply bool_decide_eq_true in Hc.
  - simpl. by rewrite Nat.sub_0_r.
  - rewrite Hst'. by eexists.
Qed.

Lemma iterations_le_length n step :
  1 ≤ step → (n + (step - 1)) `div` step ≤ n.
Proof.
  intros Hstep. destruct (decide (n = 0)) as [-> | Hn].
  - rewrite Nat.div_small; lia.
  - apply Nat.Div0.div_le_upper_bound. nia.
Qed.

Lemma pushSlices_more_fuel fuel fuel' (s : jsstring) maxLength chunks chunks' :
  pushSlices fuel s maxLength chunks = Some chunks' → fuel ≤ fuel' →
  pushSlices fuel' s maxLength chunks = Some chunks'.
Proof.
  unfold pushSlices. intros Hrun Hle.
  destruct (while fuel _ _ _) as [st'|] eqn:Hw; [|done].
  by rewrite (while_more_fuel _ _ _ _ _ _ Hw Hle).
Qed.

(** With [maxLength = 0] the index never moves. *)
Lemma pushSlices_zero_diverges fuel (s : jsstring) chunks :
  s ≠ [] → pushSlices fuel s 0 chunks = None.
Proof.
  intros Hs. unfold pushSlices.
  enough (∀ chunks, while fuel (sliceCond s) (sliceBody s 0) (0, chunks) = None)
    as -> by done.
  induction fuel as [|fuel IH]; intros chunks0; [done|].
  simpl. unfold sliceCond at 1. simpl.
  rewrite bool_decide_eq_true_2 by (destruct s; [done | simpl; lia]).
  apply IH.
Qed.

(** ** The matcher *)

Lemma matchStar_suffix cls k s rest :
  consumes k → matchStar cls s k = Some rest → rest `suffix_of` s.
Proof.
  intros Hk. induction s as [|c t IH]; simpl; [by apply Hk|].
  destruct (inClass cls c); [|by apply Hk].
  destruct (matchStar cls t k) as [rest'|] eqn:Hstar.
  - intros [= ->]. by apply suffix_cons_r, IH.
  - by apply Hk.
Qed.

Lemma matchPlus_suffix cls k s rest :
  consumes k → matchPlus cls s k = Some rest →
  rest `suffix_of` s ∧ length rest < length s.
Proof.
  intros Hk. destruct s as [|c t]; simpl; [done|].
  destruct (inClass cls c); [|done]. intros Hstar.
  apply matchStar_suffix in Hstar; [|done]. split.
  - by apply suffix_cons_r.
  - apply suffix_length in Hstar. lia.
Qed.

Lemma matchRegex_suffix r :
  ∀ k s rest, consumes k → matchRegex r s k = Some rest →
    rest `suffix_of` s ∧ length rest < length s.
Proof.
  induction r as [cls | r1 IH1 r2 IH2]; intros k s rest Hk; simpl.
  - by apply matchPlus_suffix.
  - apply IH1. intros s' rest' Hm. by apply (IH2 k s' rest').
Qed.

Lemma matchAt_suffix r s rest :
  matchAt r s = Some rest → rest `suffix_of` s ∧ length rest < length s.
Proof. apply matchRegex_suffix. by intros s' rest' [= ->]. Qed.

(** [length s] rounds are enough: more rounds find the same matches. *)
Lemma matchAllFrom_rounds r n :
  ∀ m s, length s ≤ n → length s ≤ m → matchAllFrom n r s = matchAllFrom m r s.
Proof.
  induction n as [|n IH]; intros m s Hn Hm.
  - destruct s; [|simpl in Hn; lia]. by destruct m.
  - destruct m as [|m]; [by destruct s; [|simpl in Hm; lia]|].
    destruct s as [|c t]; [done|]. simpl in *.
    change (matchRegex r (c :: t) Some) with (matchAt r (c :: t)).
    destruct (matchAt r (c :: t)) as [rest|] eqn:Hat.
    + apply matchAt_suffix in Hat as [_ Hlt]. simpl in Hlt.
      f_equal. apply IH; lia.
    + apply IH; lia.
Qed.

Lemma stringMatchAll_lengths r s :
  Forall (λ m, length m ≤ length s) (stringMatchAll r s).
Proof.
  unfold stringMatchAll. generalize (length s) at 2 as n. intros n.
  revert s. induction n as [|n IH]; intros s; [constructor|].
  destruct s as [|c t]; [constructor|]. simpl.
  change (matchRegex r (c :: t) Some) with (matchAt r (c :: t)).
  destruct (matchAt r (c :: t)) as [rest|] eqn:Hat.
  - apply matchAt_suffix in Hat as [_ Hlt]. simpl in Hlt. constructor.
    + rewrite length_take. simpl. lia.
    + eapply Forall_impl; [apply IH|]. simpl. intros m Hm. lia.
  - eapply Forall_impl; [apply IH|]. simpl. intros m Hm. lia.
Qed.

(** *** The sentence pattern, read off the matcher *)

Lemma matchStar_terminators s :
  matchStar {| negated := false; members := terminators |} s Some
  = Some (dropWhile isTerminator s).
Proof.
  induction s as [|c t IH]; [done|]. simpl.
  unfold inClass. simpl. fold (isTerminator c).
  destruct (isTerminator c); [|done]. by rewrite IH.
Qed.

Lemma inClass_terminators c :
  inClass {| negated := false; members := terminators |} c = isTerminator c.
Proof. done. Qed.

Lemma inClass_not_terminators c :
  inClass {| negated := true; members := terminators |} c = notTerminator c.
Proof. done. Qed.

Lemma matchStar_sentence t :
  matchStar {| negated := true; members := terminators |} t
    (λ s', matchPlus {| negated := false; members := terminators |} s' Some)
  = match dropWhile notTerminator t with
    | [] => None
    | _ :: r => Some (dropWhile isTerminator r)
    end.
Proof.
  induction t as [|c t IH]; [done|]. cbn [matchStar matchPlus dropWhile].
  rewrite inClass_terminators, inClass_not_terminators.
  assert (notTerminator c = negb (isTerminator c)) as -> by done.
  destruct (isTerminator c) eqn:Hc; cbn [negb].
  - apply matchStar_terminators.
  - rewrite IH. by destruct (dropWhile notTerminator t).
Qed.

Lemma matchAt_sentence c t :
  matchAt sentencePattern (c :: t)
  = if isTerminator c then None
    else match dropWhile notTerminator t with
         | [] => None
         | _ :: r => Some (dropWhile isTerminator r)
         end.
Proof.
  unfold matchAt. cbn [sentencePattern matchRegex matchPlus].
  rewrite inClass_not_terminators.
  assert (notTerminator c = negb (isTerminator c)) as -> by done.
  destruct (isTerminator c); [done|]. cbn [negb]. apply matchStar_sentence.
Qed.

Lemma dropWhile_split {A} (p : A → bool) l :
  ∃ pre, l = pre ++ dropWhile p l ∧ Forall (λ x, p x = true) pre.
Proof.
  induction l as [|x l (pre & Heq & Hpre)]; [by exists []|]. simpl.
  destruct (p x) eqn:Hx.
  - exists (x :: pre). split; [by rewrite Heq at 1 | by constructor].
  - by exists [].
Qed.

Lemma dropWhile_head {A} (p : A → bool) l x :
  head (dropWhile p l) = Some x → p x = false.
Proof.
  induction l as [|y l IH]; simpl; [done|].
  destruct (p y) eqn:Hy; [done|]. by intros [= <-].
Qed.

Lemma dropWhile_nil {A} (p : A → bool) l :
  dropWhile p l = [] → Forall (λ x, p x = true) l.
Proof.
  induction l as [|y l IH]; simpl; [constructor|].
  destruct (p y) eqn:Hy; [|done]. intros Hnil. constructor; auto.
Qed.

Lemma dropWhile_all {A} (p : A → bool) l :
  Forall (λ x, p x = true) l → dropWhile p l = [].
Proof. induction 1 as [|x l Hx _ IH]; simpl; [done|]. by rewrite Hx. Qed.

(** No sentence is found in a text without terminators. *)
Lemma matchAllFrom_unterminated n s :
  Forall (λ c, notTerminator c = true) s → matchAllFrom n sentencePattern s = [].
Proof.
  revert s. induction n as [|n IH]; intros s Hs; [done|].
  destruct Hs as [|c t Hc Ht]; [done|].
  cbn [matchAllFrom]. rewrite matchAt_sentence.
  unfold notTerminator in Hc. apply negb_true_iff in Hc. rewrite Hc.
  rewrite dropWhile_all by done. by apply IH.
Qed.

(** The sentences found in a text are consecutive: the text is some leading
    terminators, then the sentences one after the other, then a tail
    without any terminator. *)
Lemma matchAllFrom_sentences n :
  ∀ s, length s ≤ n →
    ∃ pre post,
      s = pre ++ concat (matchAllFrom n sentencePattern s) ++ post
      ∧ Forall (λ c, isTerminator c = true) pre
      ∧ Forall (λ c, notTerminator c = true) post
      ∧ ((∀ c, head s = Some c → isTerminator c = false) → pre = []).
Proof.
  induction n as [|n IH]; intros s Hlen.
  - destruct s; [|simpl in Hlen; lia]. exists [], []. by split_and!.
  - destruct s as [|c t]; [exists [], []; by split_and!|].
    cbn [matchAllFrom]. rewrite matchAt_sentence.
    destruct (isTerminator c) eqn:Hc.
    + destruct (IH t) as (pre & post & Heq & Hpre & Hpost & _);
        [simpl in Hlen; lia|].
      exists (c :: pre), post. split_and!; [| by constructor | done |].
      * simpl. by rewrite <- Heq.
      * intros Hhead. specialize (Hhead c eq_refl). congruence.
    + destruct (dropWhile notTerminator t) as [|d r] eqn:Hbody.
      * apply dropWhile_nil in Hbody.
        rewrite matchAllFrom_unterminated by done.
        exists [], (c :: t). split_and!; [done | constructor | | done].
        constructor; [|done]. unfold notTerminator. by rewrite Hc.
      * assert (dropWhile isTerminator r `suffix_of` c :: t
                ∧ length (dropWhile isTerminator r) < length (c :: t))
          as [Hsuf Hlt].
        { pose proof (matchAt_sentence c t) as Hat.
          rewrite Hc, Hbody in Hat. by apply matchAt_suffix in Hat. }
        destruct (IH (dropWhile isTerminator r))
          as (pre & post & Heq & _ & Hpost & Hnil); [simpl in *; lia|].
        rewrite Hnil in Heq by (intros x; apply dropWhile_head).
        exists [], post. split_and!; [| constructor | done | done].
        simpl in Heq. cbn [concat app]. rewrite <- app_assoc, <- Heq.
        destruct Hsuf as [matched Hmatched].
        rewrite Hmatched at 1 2 3. rewrite length_app.
        replace (length matched + _ - _) with (length matched) by lia.
        by rewrite take_app_length.
Qed.

(** ** Trimming *)

Lemma nonWhiteSpace_dropWhile s :
  nonWhiteSpace (dropWhile isWhiteSpace s) = nonWhiteSpace s.
Proof.
  unfold nonWhiteSpace. induction s as [|c t IH]; [done|]. simpl.
  destruct (isWhiteSpace c) eqn:Hc; [|done].
  rewrite IH, filter_cons_False; [done | by rewrite Hc].
Qed.

Lemma nonWhiteSpace_trim s : nonWhiteSpace (trim s) = nonWhiteSpace s.
Proof.
  unfold trim, trimEnd, trimStart.
  rewrite <- (nonWhiteSpace_dropWhile s).
  generalize (dropWhile isWhiteSpace s) as u. intros u.
  transitivity (reverse (nonWhiteSpace (dropWhile isWhiteSpace (reverse u)))).
  { unfold nonWhiteSpace. apply filter_reverse. }
  rewrite nonWhiteSpace_dropWhile. unfold nonWhiteSpace.
  by rewrite filter_reverse, reverse_involutive.
Qed.

Lemma nonWhiteSpace_app s1 s2 :
  nonWhiteSpace (s1 ++ s2) = nonWhiteSpace s1 ++ nonWhiteSpace s2.
Proof. apply filter_app. Qed.

Lemma length_dropWhile {A} (p : A → bool) l : length (dropWhile p l) ≤ length l.
Proof.
  induction l as [|x l IH]; simpl; [done|]. destruct (p x); simpl; lia.
Qed.

Lemma length_trim s : length (trim s) ≤ length s.
Proof.
  unfold trim, trimEnd, trimStart. rewrite length_reverse.
  etrans; [apply length_dropWhile|]. rewrite length_reverse.
  apply length_dropWhile.
Qed.

(** ** The sentence loop *)

Lemma chunkBound_snoc maxLength chunks chunk :
  chunkBound maxLength chunks → length chunk ≤ maxLength →
  chunkBound maxLength (chunks ++ [chunk]).
Proof. intros. apply Forall_app. split; [done|]. by constructor. Qed.

Lemma sentenceStep_bound fuel maxLength st sentence st' :
  loopBound maxLength st →
  sentenceStep fuel maxLength st sentence = Some st' →
  loopBound maxLength st'.
Proof.
  destruct st as [chunks currentChunk]. intros [Hchunks Hcur].
  unfold sentenceStep. cbn [fst snd] in *.
  case_bool_decide as Hempty; [by intros [= <-]|].
  case_bool_decide as Hlong.
  - set (flushed := if bool_decide (0 < length currentChunk)
                    then (chunks ++ [currentChunk], [])
                    else (chunks, currentChunk)).
    assert (loopBound maxLength flushed) as [Hf1 Hf2].
    { subst flushed. case_bool_decide; split; simpl; try done.
      - by apply chunkBound_snoc.
      - lia. }
    destruct (pushSlices _ _ _ _) as [chunks'|] eqn:Hpush; [|done].
    simpl. intros [= <-].
    apply pushSlices_spec in Hpush as (pieces & -> & Hpieces & _).
    split; [|done]. by apply Forall_app.
  - case_bool_decide as Hjoin; intros [= <-]; split; simpl.
    + by apply chunkBound_snoc.
    + lia.
    + done.
    + rewrite !length_app in *. case_bool_decide; simpl in *; lia.
Qed.

Lemma sentenceStep_content fuel maxLength st sentence st' :
  sentenceStep fuel maxLength st sentence = Some st' →
  nonWhiteSpace (concat st'.1 ++ st'.2)
  = nonWhiteSpace (concat st.1 ++ st.2) ++ nonWhiteSpace sentence.
Proof.
  destruct st as [chunks currentChunk].
  unfold sentenceStep. cbn [fst snd].
  rewrite <- (nonWhiteSpace_trim sentence).
  case_bool_decide as Hempty.
  - intros [= <-]. destruct (trim sentence); [|done].
    by rewrite app_nil_r.
  - case_bool_decide as Hlong.
    + set (flushed := if bool_decide (0 < length currentChunk)
                      then (chunks ++ [currentChunk], [])
                      else (chunks, currentChunk)).
      assert (concat flushed.1 ++ flushed.2 = concat chunks ++ currentChunk)
        as Hflushed.
      { subst flushed. case_bool_decide; [|done]. simpl.
        by rewrite concat_app, app_nil_r; simpl; rewrite app_nil_r. }
      destruct (pushSlices _ _ _ _) as [chunks'|] eqn:Hpush; [|done].
      simpl. intros [= <-].
      apply pushSlices_spec in Hpush as (pieces & -> & _ & Hcat & _).
      cbn [fst snd]. rewrite concat_app, Hcat, <- Hflushed.
      rewrite !nonWhiteSpace_app.
      assert (flushed.2 = []) as ->.
      { subst flushed. case_bool_decide as Hc; [done|]. simpl.
        destruct currentChunk; [done | simpl in Hc; lia]. }
      by rewrite !app_nil_r.
    + case_bool_decide as Hjoin; intros [= <-]; cbn [fst snd].
      * rewrite concat_app. simpl. by rewrite app_nil_r, <- nonWhiteSpace_app.
      * rewrite !nonWhiteSpace_app. rewrite <- !app_assoc. do 2 f_equal.
        by case_bool_decide.
Qed.

Lemma sentenceStep_terminates fuel maxLength st sentence :
  1 ≤ maxLength → length sentence < fuel →
  is_Some (sentenceStep fuel maxLength st sentence).
Proof.
  intros Hm Hfuel. unfold sentenceStep.
  case_bool_decide; [by eexists|].
  case_bool_decide; [|case_bool_decide; by eexists].
  match goal with
  | |- context [pushSlices fuel ?s maxLength ?c] =>
      destruct (pushSlices_terminates fuel s maxLength c) as [chunks' ->]
  end; [done | | by eexists].
  pose proof (iterations_le_length (length (trim sentence)) maxLength Hm).
  pose proof (length_trim sentence). lia.
Qed.

Lemma sentenceStep_more_fuel fuel fuel' maxLength st sentence st' :
  sentenceStep fuel maxLength st sentence = Some st' → fuel ≤ fuel' →
  sentenceStep fuel' maxLength st sentence = Some st'.
Proof.
  unfold sentenceStep. intros Hrun Hle.
  repeat case_bool_decide; try done;
    (destruct (pushSlices fuel _ _ _) as [chunks'|] eqn:Hpush; [|done]);
    by rewrite (pushSlices_more_fuel _ _ _ _ _ _ Hpush Hle).
Qed.

Lemma forSentences_bound fuel maxLength sentences :
  ∀ st st', loopBound maxLength st →
    forSentences fuel maxLength sentences st = Some st' →
    loopBound maxLength st'.
Proof.
  induction sentences as [|sentence rest IH]; intros st st' Hst; simpl.
  - by intros [= <-].
  - destruct (sentenceStep _ _ _ _) as [st1|] eqn:Hstep; [|done]. simpl.
    apply IH. by eapply sentenceStep_bound.
Qed.

Lemma forSentences_content fuel maxLength sentences :
  ∀ st st', forSentences fuel maxLength sentences st = Some st' →
    nonWhiteSpace (concat st'.1 ++ st'.2)
    = nonWhiteSpace (concat st.1 ++ st.2) ++ nonWhiteSpace (concat sentences).
Proof.
  induction sentences as [|sentence rest IH]; intros st st'; simpl.
  - intros [= <-]. by rewrite app_nil_r.
  - destruct (sentenceStep _ _ _ _) as [st1|] eqn:Hstep; [|done]. simpl.
    intros Hrest. apply IH in Hrest. apply sentenceStep_content in Hstep.
    by rewrite Hrest, Hstep, (nonWhiteSpace_app sentence), app_assoc.
Qed.

Lemma forSentences_terminates fuel maxLength sentences :
  1 ≤ maxLength → Forall (λ sentence, length sentence < fuel) sentences →
  ∀ st, is_Some (forSentences fuel maxLength sentences st).
Proof.
  intros Hm. induction 1 as [|sentence rest Hlen _ IH]; intros st; simpl.
  - by eexists.
  - destruct (sentenceStep_terminates fuel maxLength st sentence) as [st1 ->];
      [done..|]. simpl. apply IH.
Qed.

Lemma forSentences_more_fuel fuel fuel' maxLength sentences :
  fuel ≤ fuel' →
  ∀ st st', forSentences fuel maxLength sentences st = Some st' →
    forSentences fuel' maxLength sentences st = Some st'.
Proof.
  intros Hle. induction sentences as [|sentence rest IH]; intros st st'; simpl.
  - done.
  - destruct (sentenceStep fuel _ _ _) as [st1|] eqn:Hstep; [|done]. simpl.
    rewrite (sentenceStep_more_fuel _ _ _ _ _ _ Hstep Hle). simpl. apply IH.
Qed.

(** ** [splitTextIntoChunks] *)

Lemma splitTextIntoChunks_bound fuel text maxLength chunks :
  splitTextIntoChunks fuel text maxLength = Some chunks →
  chunkBound maxLength chunks.
Proof.
  unfold splitTextIntoChunks.
  case_bool_decide as Hnone.
  - case_bool_decide as Hlong.
    + intros Hpush. by apply pushSlices_spec in Hpush as (pieces & -> & ? & _).
    + intros [= <-]. case_bool_decide; [constructor|].
      constructor; [lia | constructor].
  - destruct (forSentences _ _ _ _) as [st|] eqn:Hloop; [|done]. simpl.
    intros [= <-].
    apply forSentences_bound in Hloop as [H1 H2];
      [|split; simpl; [constructor | lia]].
    case_bool_decide; [|done]. by apply chunkBound_snoc.
Qed.

Lemma splitTextIntoChunks_terminates fuel text maxLength :
  1 ≤ maxLength → length text < fuel →
  is_Some (splitTextIntoChunks fuel text maxLength).
Proof.
  intros Hm Hfuel. unfold splitTextIntoChunks.
  case_bool_decide as Hnone.
  - case_bool_decide as Hlong; [|by eexists].
    apply pushSlices_terminates; [done|].
    pose proof (iterations_le_length (length text) maxLength Hm). lia.
  - destruct (forSentences_terminates fuel maxLength
                (stringMatchAll sentencePattern text)) with (st := ([] : list jsstring, [] : jsstring))
      as [st ->]; [done | | by eexists].
    eapply Forall_impl; [apply stringMatchAll_lengths|]. simpl. lia.
Qed.

Lemma splitTextIntoChunks_more_fuel fuel fuel' text maxLength chunks :
  splitTextIntoChunks fuel text maxLength = Some chunks → fuel ≤ fuel' →
  splitTextIntoChunks fuel' text maxLength = Some chunks.
Proof.
  unfold splitTextIntoChunks. intros Hrun Hle.
  repeat case_bool_decide; try done.
  - by eapply pushSlices_more_fuel.
  - destruct (forSentences fuel _ _ _) as [st|] eqn:Hloop; [|done].
    by rewrite (forSentences_more_fuel _ _ _ _ Hle _ _ Hloop).
Qed.

(** With [maxLength >= 1] the function returns, and any budget above the
    length of the text gives its result. *)
Lemma splitTextIntoChunks_returns text maxLength :
  1 ≤ maxLength →
  ∃ chunks,
    ∀ fuel, length text < fuel →
      splitTextIntoChunks fuel text maxLength = Some chunks.
Proof.
  intros Hm.
  destruct (splitTextIntoChunks_terminates (S (length text)) text maxLength)
    as [chunks Hchunks]; [done | lia |].
  exists chunks. intros fuel Hfuel.
  apply (splitTextIntoChunks_more_fuel _ _ _ _ _ Hchunks). lia.
Qed.

Lemma splitTextIntoChunks_unchanged fuel text maxLength chunks :
  splitTextIntoChunks fuel text maxLength = Some chunks →
  stringMatchAll sentencePattern text = [] →
  concat chunks = text.
Proof.
  intros Hsplit Hnone. unfold splitTextIntoChunks in Hsplit.
  rewrite Hnone in Hsplit. simpl in Hsplit.
  case_bool_decide as Hlong.
  - by apply pushSlices_spec in Hsplit as (pieces & -> & _ & ? & _).
  - injection Hsplit as <-. case_bool_decide as Hnil; [done|].
    simpl. by rewrite app_nil_r.
Qed.

Lemma splitTextIntoChunks_content fuel text maxLength chunks :
  splitTextIntoChunks fuel text maxLength = Some chunks →
  stringMatchAll sentencePattern text ≠ [] →
  nonWhiteSpace (concat chunks)
  = nonWhiteSpace (concat (stringMatchAll sentencePattern text)).
Proof.
  intros Hsplit Hsome. unfold splitTextIntoChunks in Hsplit.
  rewrite bool_decide_eq_false_2 in Hsplit
    by (by destruct (stringMatchAll sentencePattern text)).
  destruct (forSentences _ _ _ _) as [st|] eqn:Hloop; [|done].
  simpl in Hsplit. injection Hsplit as <-.
  apply forSentences_content in Hloop. simpl in Hloop. rewrite <- Hloop.
  case_bool_decide as Hcur.
  - rewrite concat_app. simpl. by rewrite app_nil_r.
  - destruct (st.2); [by rewrite app_nil_r | simpl in Hcur; lia].
Qed.

(** Every sentence found holds a terminator, which is not white space. *)
Lemma matchAllFrom_terminated n :
  ∀ s, Forall (λ sentence, ∃ c, c ∈ sentence ∧ isTerminator c = true)
              (matchAllFrom n sentencePattern s).
Proof.
  induction n as [|n IH]; intros s; [constructor|].
  destruct s as [|c t]; [constructor|].
  cbn [matchAllFrom]. rewrite matchAt_sentence.
  destruct (isTerminator c) eqn:Hc; [apply IH|].
  destruct (dropWhile notTerminator t) as [|d r] eqn:Hbody; [apply IH|].
  constructor; [|apply IH]. exists d. split.
  - destruct (dropWhile_split notTerminator t) as (body & Ht & _).
    rewrite Hbody in Ht.
    assert (length (dropWhile isTerminator r) ≤ length r)
      by apply length_dropWhile.
    apply (list_elem_of_lookup_2 _ (S (length body))).
    rewrite lookup_take_lt
      by (rewrite Ht; simpl; rewrite length_app; simpl; lia).
    rewrite Ht. simpl. by rewrite list_lookup_middle.
  - assert (notTerminator d = false) as Hd
      by (apply (dropWhile_head notTerminator t); by rewrite Hbody).
    unfold notTerminator in Hd. by apply negb_false_iff in Hd.
Qed.

Lemma terminator_not_whitespace c :
  isTerminator c = true → isWhiteSpace c = false.
Proof.
  unfold isTerminator, terminators. intros Hc.
  apply bool_decide_eq_true in Hc.
  repeat (apply elem_of_cons in Hc as [-> | Hc]; [done|]).
  by apply elem_of_nil in Hc.
Qed.

(** A text that is not empty is never split into zero chunks. *)
Lemma splitTextIntoChunks_nonempty fuel text maxLength chunks :
  splitTextIntoChunks fuel text maxLength = Some chunks →
  text ≠ [] → chunks ≠ [].
Proof.
  intros Hsplit Htext ->.
  destruct (stringMatchAll sentencePattern text) as [|sentence rest] eqn:Hs.
  - apply splitTextIntoChunks_unchanged in Hsplit; [|done]. by subst.
  - apply splitTextIntoChunks_content in Hsplit; [|by rewrite Hs].
    pose proof (matchAllFrom_terminated (length text) text) as Hterm.
    fold (stringMatchAll sentencePattern text) in Hterm. rewrite Hs in *.
    apply Forall_inv in Hterm as (c & Hin & Hc).
    apply terminator_not_whitespace in Hc.
    assert (c ∈ nonWhiteSpace (concat (sentence :: rest))) as Hc'.
    { unfold nonWhiteSpace. apply list_elem_of_filter. split; [done|].
      simpl. apply elem_of_app. by left. }
    rewrite <- Hsplit in Hc'. by apply elem_of_nil in Hc'.
Qed.

(** ** PCM assembly *)

Lemma totalLength_sum (arrayBuffers : list (list N)) acc :
  foldl (λ acc value, acc + length value) acc arrayBuffers
  = acc + sum_list (length <$> arrayBuffers).
Proof.
  revert acc. induction arrayBuffers as [|buffer rest IH]; intros acc; simpl.
  - lia.
  - by rewrite IH, <- Nat.add_assoc.
Qed.

(** Loop invariant of the copy: the bytes already written are followed by
    as many zeros as remain to be written. *)
Lemma copyBuffers_spec (rest : list (list N)) :
  ∀ written,
    copyBuffers rest
      (written ++ replicate (sum_list (length <$> rest)) 0%N) (length written)
    = Normal (written ++ concat rest).
Proof.
  induction rest as [|buffer rest IH]; intros written; [done|].
  cbn [copyBuffers fmap list_fmap sum_list_with concat id].
  unfold Uint8Array_set.
  rewrite bool_decide_eq_true_2
    by (rewrite length_app, length_replicate; lia).
  cbn [mbind Completion_bind].
  rewrite <- (Nat.add_0_r (length written)) at 1.
  rewrite list_inserts_app_r, replicate_add.
  rewrite list_inserts_0_r by (by rewrite length_replicate).
  rewrite <- length_app, (app_assoc written buffer), IH.
  by rewrite <- app_assoc.
Qed.

Lemma combinePcm_concat (arrayBuffers : list (list N)) :
  combinePcm arrayBuffers = Normal (concat arrayBuffers).
Proof.
  unfold combinePcm, Uint8Array_new. rewrite totalLength_sum. simpl.
  apply (copyBuffers_spec arrayBuffers []).
Qed.

Lemma length_concat_sum {A} (ls : list (list A)) :
  length (concat ls) = sum_list (length <$> ls).
Proof.
  induction ls as [|l ls IH]; [done|]. simpl. by rewrite length_app, IH.
Qed.

Lemma concat_lookup_block {A} (ls : list (list A)) i (l : list A) j :
  ls !! i = Some l → j < length l →
  concat ls !! (sum_list (length <$> take i ls) + j) = l !! j.
Proof.
  intros Hi Hj. rewrite <- length_concat_sum.
  transitivity (concat (take i ls ++ l :: drop (S i) ls)
                  !! (length (concat (take i ls)) + j));
    [by rewrite take_drop_middle|].
  rewrite concat_app. cbn [concat].
  rewrite lookup_app_r by lia.
  replace (length (concat (take i ls)) + j - length (concat (take i ls)))
    with j by lia.
  by rewrite lookup_app_l.
Qed.

(** Byte by byte: byte [j] of buffer [i] is found [j] places after the
    offset of the buffer. *)
Lemma combinePcm_byte (arrayBuffers : list (list N)) combinedPcm i buffer j :
  combinePcm arrayBuffers = Normal combinedPcm →
  arrayBuffers !! i = Some buffer → j < length buffer →
  combinedPcm !! (sum_list (length <$> take i arrayBuffers) + j) = buffer !! j.
Proof.
  rewrite combinePcm_concat. intros [= <-]. apply concat_lookup_block.
Qed.

(** ** The MP3 block loop *)

Lemma samplesOf_length (buffer : list N) :
  length (samplesOf buffer) = length buffer `div` 2.
Proof.
  enough (length (samplesOf buffer) = length buffer `div` 2
          ∧ ∀ x, length (samplesOf (x :: buffer)) = length (x :: buffer) `div` 2)
    as [? _] by done.
  induction buffer as [|y buffer [IH1 IH2]]; [by split|]. split; [apply IH2|].
  intros x. cbn [samplesOf length]. rewrite IH1.
  change (S (S (length buffer))) with (1 * 2 + length buffer).
  by rewrite Nat.div_add_l.
Qed.

Lemma createMp3Blob_terminates {L : LameJs} fuel pcmData sampleRate numChannels :
  (length pcmData `div` 2 + (sampleBlockSize - 1)) `div` sampleBlockSize < fuel →
  is_Some (createMp3Blob fuel pcmData sampleRate numChannels).
Proof.
  intros Hfuel. unfold createMp3Blob, Int16Array_of.
  case_bool_decide; [|by eexists].
  destruct (while_counter (St := nat * Mp3Encoder * list (list N))
              (λ st, st.1.1) (encodeCond (samplesOf pcmData))
              (encodeBody (samplesOf pcmData))
              (length (samplesOf pcmData)) sampleBlockSize)
    with (fuel := fuel)
         (st := (0, newMp3Encoder numChannels sampleRate 128%N,
                 [] : list (list N)))
    as [st' Hst'].
  - unfold sampleBlockSize. lia.
  - intros st Hc. unfold encodeCond in Hc. by apply bool_decide_eq_true in Hc.
  - done.
  - cbn [fst]. by rewrite samplesOf_length, Nat.sub_0_r.
  - rewrite Hst'. by eexists.
Qed.

(** ** Service calls of the audio handler *)

Section HandlerFacts.
Context {E : Environment} {L : LameJs}.

Lemma generateSpeech_call text language :
  call <$> invoked (generateSpeech text language)
  = [GenerateSpeech text language].
Proof. unfold generateSpeech. by case_bool_decide. Qed.

Lemma Promise_all_speech_calls chunks language :
  call <$> invoked (Promise_all ((λ chunk, generateSpeech chunk language) <$> chunks))
  = (λ chunk, GenerateSpeech chunk language) <$> chunks.
Proof.
  cbn [Promise_all invoked].
  induction chunks as [|chunk chunks IH]; [done|].
  cbn [fmap list_fmap mbind list_bind] in *.
  by rewrite fmap_app, generateSpeech_call, IH.
Qed.

(** The calls pending during the [await] of the [try] block. *)
Lemma tryGenerateAudio_calls fuel textToSpeak language pending outcome :
  tryGenerateAudio fuel textToSpeak language = Some (Attempted pending outcome) →
  (length textToSpeak ≤ TTS_CHARACTER_LIMIT
   ∧ call <$> pending = [GenerateSpeech textToSpeak language])
  ∨ (TTS_CHARACTER_LIMIT < length textToSpeak
     ∧ ∃ chunks,
         splitTextIntoChunks fuel textToSpeak TTS_CHARACTER_LIMIT = Some chunks
         ∧ call <$> pending = (λ chunk, GenerateSpeech chunk language) <$> chunks).
Proof.
  unfold tryGenerateAudio. case_bool_decide as Hshort.
  - destruct (processAudio _ _) as [outcome'|]; [|done]. simpl.
    intros [= <- _]. left. split; [done | apply generateSpeech_call].
  - destruct (splitTextIntoChunks _ _ _) as [chunks|] eqn:Hsplit; [|done].
    simpl. case_bool_decide; [done|].
    destruct (processAudio _ _) as [outcome'|]; [|done]. simpl.
    intros [= <- _]. right. split; [lia|]. exists chunks.
    split; [done | apply Promise_all_speech_calls].
Qed.

Lemma tryGenerateAudio_no_chunks fuel textToSpeak language :
  tryGenerateAudio fuel textToSpeak language = Some NoChunks →
  TTS_CHARACTER_LIMIT < length textToSpeak
  ∧ splitTextIntoChunks fuel textToSpeak TTS_CHARACTER_LIMIT = Some [].
Proof.
  unfold tryGenerateAudio. case_bool_decide as Hshort.
  - by destruct (processAudio _ _).
  - destruct (splitTextIntoChunks _ _ _) as [chunks|] eqn:Hsplit; [|done].
    simpl. case_bool_decide as Hnil.
    + intros _. split; [lia|]. by destruct chunks.
    + by destruct (processAudio _ _).
Qed.

(** Past its two guards the handler is its [try] block followed by the
    success, [catch] and [finally] updates. *)
Lemma handleGenerateAudio_guarded fuel mode language st textToSpeak run :
  textToSpeakOf mode language st = Some textToSpeak →
  isLameJsReady st = true →
  handleGenerateAudio fuel mode language st = Some run →
  ∃ attempt,
    tryGenerateAudio fuel textToSpeak language = Some attempt
    ∧ awaited run
      = match attempt with
        | NoChunks => []
        | Attempted pending _ => [pending]
        end
    ∧ match attempt with
      | NoChunks => error (final run) = None
      | Attempted _ (Normal mp3Blob) =>
          error (final run) = None
          ∧ audioSrc (final run) = Some (createObjectURL mp3Blob)
          ∧ audioBlob (final run) = Some (mp3Blob, language)
      | Attempted _ (Throw _) =>
          error (final run)
          = Some "No se pudo generar el audio para este texto."
          ∧ audioSrc (final run) = None
          ∧ audioBlob (final run) = None
      end.
Proof.
  intros Htext Hready. unfold handleGenerateAudio. rewrite Htext, Hready.
  cbn [negb].
  destruct (tryGenerateAudio _ _ _) as [attempt|]; [|done]. simpl.
  intros [= <-]. exists attempt. split; [done|].
  destruct attempt as [|pending [mp3Blob|e]]; by split_and?.
Qed.

Lemma handleGenerateAudio_calls_bound fuel mode language st run :
  handleGenerateAudio fuel mode language st = Some run →
  Forall (λ inv, ∃ text lang,
            call inv = GenerateSpeech text lang
            ∧ length text ≤ TTS_CHARACTER_LIMIT)
         (concat (awaited run)).
Proof.
  destruct (textToSpeakOf mode language st) as [textToSpeak|] eqn:Htext.
  2:{ unfold handleGenerateAudio. rewrite Htext. intros [= <-]. constructor. }
  destruct (isLameJsReady st) eqn:Hready.
  2:{ unfold handleGenerateAudio. rewrite Htext, Hready. intros [= <-].
      constructor. }
  intros Hrun.
  destruct (handleGenerateAudio_guarded _ _ _ _ _ _ Htext Hready Hrun)
    as (attempt & Htry & -> & _).
  destruct attempt as [|pending outcome]; [constructor|].
  cbn [concat]. rewrite app_nil_r.
  apply tryGenerateAudio_calls in Htry
    as [[Hshort Hcalls] | (_ & chunks & Hsplit & Hcalls)].
  - destruct pending as [|inv [|? ?]]; try done.
    injection Hcalls as Hcall. constructor; [|constructor]. eauto.
  - apply splitTextIntoChunks_bound in Hsplit.
    clear -Hsplit Hcalls. revert pending Hcalls.
    induction Hsplit as [|chunk chunks Hchunk _ IH]; intros pending Hcalls.
    + destruct pending; [constructor | done].
    + destruct pending as [|inv pending]; [done|].
      injection Hcalls as Hcall Hrest. constructor; eauto.
Qed.
(** The calls of a run that got past the guards. *)
Lemma handleGenerateAudio_calls fuel mode language st textToSpeak run :
  textToSpeakOf mode language st = Some textToSpeak →
  isLameJsReady st = true →
  handleGenerateAudio fuel mode language st = Some run →
  (call <$> concat (awaited run) = [GenerateSpeech textToSpeak language]
   ↔ length textToSpeak ≤ TTS_CHARACTER_LIMIT)
  ∧ (TTS_CHARACTER_LIMIT < length textToSpeak →
     ∃ chunks,
       splitTextIntoChunks fuel textToSpeak TTS_CHARACTER_LIMIT = Some chunks
       ∧ call <$> concat (awaited run)
         = (λ chunk, GenerateSpeech chunk language) <$> chunks).
Proof.
  intros Htext Hready Hrun.
  destruct (handleGenerateAudio_guarded _ _ _ _ _ _ Htext Hready Hrun)
    as (attempt & Htry & -> & _).
  destruct attempt as [|pending outcome].
  - apply tryGenerateAudio_no_chunks in Htry as [Hlong Hsplit].
    split; [split; [done | lia]|]. intros _. by exists [].
  - cbn [concat]. rewrite app_nil_r.
    apply tryGenerateAudio_calls in Htry
      as [[Hshort Hcalls] | (Hlong & chunks & Hsplit & Hcalls)].
    + split; [by split | lia].
    + split; [|intros _; by exists chunks].
      split; [|lia]. rewrite Hcalls. intros Hone.
      apply splitTextIntoChunks_bound in Hsplit.
      destruct chunks as [|chunk [|? ?]]; try done.
      injection Hone as ->. by apply Forall_inv in Hsplit.
Qed.
(** The dead branch: for a text above the limit the chunk list is never
    empty. *)
Lemma tryGenerateAudio_attempts fuel textToSpeak language :
  tryGenerateAudio fuel textToSpeak language ≠ Some NoChunks.
Proof.
  intros Htry. apply tryGenerateAudio_no_chunks in Htry as [Hlong Hsplit].
  apply splitTextIntoChunks_nonempty in Hsplit; [done|].
  intros ->. simpl in Hlong. lia.
Qed.

Lemma processAudio_terminates results :
  ∃ fuel0, ∀ fuel, fuel0 ≤ fuel → is_Some (processAudio fuel results).
Proof.
  unfold processAudio.
  destruct (results ≫= _) as [combinedPcm|e].
  - exists (S ((length combinedPcm `div` 2 + (sampleBlockSize - 1))
               `div` sampleBlockSize)).
    intros fuel Hfuel. apply createMp3Blob_terminates. lia.
  - exists 0. intros fuel _. by eexists.
Qed.

Lemma tryGenerateAudio_terminates textToSpeak language :
  ∃ fuel0, ∀ fuel, fuel0 ≤ fuel →
    is_Some (tryGenerateAudio fuel textToSpeak language).
Proof.
  unfold tryGenerateAudio. case_bool_decide as Hshort.
  - destruct (processAudio_terminates
                ((λ singleResult, [singleResult])
                   <$> settled (generateSpeech textToSpeak language)))
      as [fuel0 Hfuel0].
    exists fuel0. intros fuel Hfuel.
    destruct (Hfuel0 fuel Hfuel) as [outcome ->]. by eexists.
  - destruct (splitTextIntoChunks_returns textToSpeak TTS_CHARACTER_LIMIT)
      as [chunks Hchunks]; [unfold TTS_CHARACTER_LIMIT; lia|].
    destruct (processAudio_terminates
                (settled (Promise_all
                   ((λ chunk, generateSpeech chunk language) <$> chunks))))
      as [fuel0 Hfuel0].
    exists (S (length textToSpeak) `max` fuel0). intros fuel Hfuel.
    rewrite Hchunks by lia. cbn [mbind option_bind].
    case_bool_decide; [by eexists|].
    destruct (Hfuel0 fuel) as [outcome ->]; [lia|]. by eexists.
Qed.

(** With a large enough iteration budget the handler returns. *)
Lemma handleGenerateAudio_terminates mode language st :
  ∃ fuel0, ∀ fuel, fuel0 ≤ fuel →
    is_Some (handleGenerateAudio fuel mode language st).
Proof.
  unfold handleGenerateAudio.
  destruct (textToSpeakOf mode language st) as [textToSpeak|];
    [|exists 0; intros; by eexists].
  destruct (isLameJsReady st); cbn [negb]; [|exists 0; intros; by eexists].
  destruct (tryGenerateAudio_terminates textToSpeak language) as [fuel0 Hfuel0].
  exists fuel0. intros fuel Hfuel.
  destruct (Hfuel0 fuel Hfuel) as [attempt ->]. by eexists.
Qed.
End HandlerFacts.

(** ** Claims about chunking and the speech requests *)

(** C1. For every text and every [maxLength >= 1],
    [splitTextIntoChunks] returns a list every chunk of which has at most
    [maxLength] code units; and every [generateSpeech] call made by
    [handleGenerateAudio] carries at most 4800 of them. *)
Theorem chunks_within_maxLength :
  (∀ text maxLength,
      1 ≤ maxLength →
      ∃ chunks,
        (∀ fuel, length text < fuel →
           splitTextIntoChunks fuel text maxLength = Some chunks)
        ∧ Forall (λ chunk, length chunk ≤ maxLength) chunks)
  ∧ (∀ (E : Environment) (L : LameJs) fuel mode language st run,
      handleGenerateAudio fuel mode language st = Some run →
      Forall (λ inv, ∃ text lang,
                call inv = GenerateSpeech text lang ∧ length text ≤ 4800)
             (concat (awaited run))).
Proof.
  split.
  - intros text maxLength Hm.
    destruct (splitTextIntoChunks_returns text maxLength Hm) as [chunks Hchunks].
    exists chunks. split; [done|].
    apply (splitTextIntoChunks_bound (S (length text)) text).
    apply Hchunks. lia.
  - intros E L fuel mode language st run. apply handleGenerateAudio_calls_bound.
Qed.

Lemma chunks_within_maxLength_witness :
  (∃ chunks,
     splitTextIntoChunks 30 (js "Hola. Que tal? Bien!") 10 = Some chunks
     ∧ Forall (λ chunk, length chunk ≤ 10) chunks)
  ∧ ∃ run,
      handleGenerateAudio (E := echoEnvironment) (L := constantEncoder)
        100 Resumido es analysedState = Some run
      ∧ Forall (λ inv, ∃ text lang,
                  call inv = GenerateSpeech text lang ∧ length text ≤ 4800)
               (concat (awaited run)).
Proof.
  split.
  - destruct (proj1 chunks_within_maxLength (js "Hola. Que tal? Bien!") 10)
      as (chunks & Hchunks & Hbound); [lia|].
    exists chunks. split; [apply Hchunks; vm_compute; lia | done].
  - eexists. split; [vm_compute; reflexivity|].
    apply (proj2 chunks_within_maxLength echoEnvironment constantEncoder
             100 Resumido es analysedState).
    vm_compute. reflexivity.
Defined.

(** C4. Past its guards, [handleGenerateAudio] returns, having made
    exactly the one call [generateSpeech(textToSpeak)] if and only if the
    text has at most 4800 code units; for a longer text it has made one
    call per chunk of [splitTextIntoChunks(textToSpeak, 4800)], in order. *)
Theorem handleGenerateAudio_requests (E : Environment) (L : LameJs)
    mode language st textToSpeak :
  textToSpeakOf mode language st = Some textToSpeak →
  isLameJsReady st = true →
  (∃ fuel0, ∀ fuel, fuel0 ≤ fuel →
     is_Some (handleGenerateAudio fuel mode language st))
  ∧ ∀ fuel run,
      handleGenerateAudio fuel mode language st = Some run →
      (call <$> concat (awaited run) = [GenerateSpeech textToSpeak language]
       ↔ length textToSpeak ≤ 4800)
      ∧ (4800 < length textToSpeak →
         ∃ chunks,
           splitTextIntoChunks fuel textToSpeak 4800 = Some chunks
           ∧ call <$> concat (awaited run)
             = (λ chunk, GenerateSpeech chunk language) <$> chunks).
Proof.
  intros Htext Hready. split.
  - apply handleGenerateAudio_terminates.
  - intros fuel run. by apply handleGenerateAudio_calls.
Qed.

Lemma handleGenerateAudio_requests_witness :
  (∃ fuel0, ∀ fuel, fuel0 ≤ fuel →
     is_Some (handleGenerateAudio (E := echoEnvironment) (L := constantEncoder)
                fuel Resumido es analysedState))
  ∧ ∃ run,
      handleGenerateAudio (E := echoEnvironment) (L := constantEncoder)
        100 Resumido es analysedState = Some run
      ∧ (call <$> concat (awaited run) = [GenerateSpeech (js "Hola. Que tal?") es]
         ↔ length (js "Hola. Que tal?") ≤ 4800).
Proof.
  destruct (handleGenerateAudio_requests echoEnvironment constantEncoder
              Resumido es analysedState (js "Hola. Que tal?"))
    as [Hreturns Hcalls]; [vm_compute; reflexivity ..|].
  split; [done|].
  eexists. split; [vm_compute; reflexivity|].
  apply (Hcalls 100). vm_compute. reflexivity.
Defined.


(** Only the matches are chunked: what follows the last terminator is not
    in any chunk, while a text without sentences is kept. *)
Lemma unterminated_tail_is_dropped :
  splitTextIntoChunks 10 (js "a. b") 10 = Some [js "a."]
  ∧ splitTextIntoChunks 10 (js " b") 10 = Some [js " b"].
Proof. vm_compute. by split. Qed.




(** C10 fails on the code.  A sentence of exactly [maxLength] code units
    that arrives while [currentChunk] is empty makes the loop push the empty
    [currentChunk]: here a text of 4803 code units, split at 4800. *)
Lemma empty_chunk_pushed :
  splitTextIntoChunks 4804 (longSentence ++ js " b.") 4800
  = Some [ []; longSentence; js "b." ].
Proof. vm_compute. reflexivity. Qed.

(** C8. With [maxLength >= 1] the slicing loop of [splitTextIntoChunks]
    stops after [ceil (length / maxLength)] iterations and the function
    returns; the block loop of [createMp3Blob] stops after
    [ceil (samples / 1152)] iterations and the function returns. *)
Theorem chunking_and_encoding_terminate :
  (∀ fuel s maxLength chunks,
      1 ≤ maxLength →
      (length s + (maxLength - 1)) `div` maxLength < fuel →
      is_Some (pushSlices fuel s maxLength chunks))
  ∧ (∀ fuel text maxLength,
      1 ≤ maxLength → length text < fuel →
      is_Some (splitTextIntoChunks fuel text maxLength))
  ∧ (∀ (L : LameJs) fuel pcmData sampleRate numChannels,
      (length pcmData `div` 2 + 1151) `div` 1152 < fuel →
      is_Some (createMp3Blob fuel pcmData sampleRate numChannels)).
Proof.
  split_and!.
  - intros. by apply pushSlices_terminates.
  - intros. by apply splitTextIntoChunks_terminates.
  - intros L fuel pcmData sampleRate numChannels Hfuel.
    by apply createMp3Blob_terminates.
Qed.

Lemma chunking_and_encoding_terminate_witness :
  is_Some (pushSlices 4 (js "abcdefgh") 3 [])
  ∧ is_Some (splitTextIntoChunks 9 (js "abcdefgh") 3)
  ∧ is_Some (createMp3Blob (L := constantEncoder) 2 [1; 2; 3; 4]%N 24000%N 1%N).
Proof.
  destruct chunking_and_encoding_terminate as (Hslices & Hsplit & Hmp3).
  split_and!.
  - apply Hslices; [lia | vm_compute; lia].
  - apply Hsplit; [lia | vm_compute; lia].
  - apply Hmp3. vm_compute. lia.
Defined.

(** C3. The PCM assembly succeeds for every list of buffers; the combined
    buffer is as long as the buffers together, and buffer [i] sits in it,
    whole and in order, at the offset given by the lengths of the buffers
    before it. *)
Theorem combinePcm_preserves_bytes (arrayBuffers : list (list N)) :
  ∃ combinedPcm,
    combinePcm arrayBuffers = Normal combinedPcm
    ∧ length combinedPcm = sum_list (length <$> arrayBuffers)
    ∧ ∀ i buffer,
        arrayBuffers !! i = Some buffer →
        take (length buffer)
             (drop (sum_list (length <$> take i arrayBuffers)) combinedPcm)
        = buffer.
Proof.
  exists (concat arrayBuffers). split_and!.
  - apply combinePcm_concat.
  - apply length_concat_sum.
  - intros i buffer Hi. rewrite <- length_concat_sum.
    rewrite <- (take_drop_middle arrayBuffers i buffer Hi) at 2.
    rewrite concat_app, drop_app_length. cbn [concat].
    by rewrite take_app_length.
Qed.

Lemma combinePcm_preserves_bytes_witness :
  ∃ combinedPcm,
    combinePcm [[1; 2]; [3]; [4; 5; 6]]%N = Normal combinedPcm
    ∧ take 3 (drop 3 combinedPcm) = [4; 5; 6]%N.
Proof.
  destruct (combinePcm_preserves_bytes [[1; 2]; [3]; [4; 5; 6]]%N)
    as (combinedPcm & Hcombined & _ & Hblock).
  exists combinedPcm. split; [done|].
  apply (Hblock 2 [4; 5; 6]%N). reflexivity.
Defined.

(** ** Rejection of [Promise.all] *)

Lemma Promise_all_rejects {E : Environment} {A} (promises : list (Promise A)) p e :
  p ∈ promises → settled p = Throw e →
  ∃ e', settled (Promise_all promises) = Throw e'.
Proof.
  intros Hp He. unfold Promise_all. cbn [settled].
  destruct (rejections promises) as [|e0 others] eqn:Hrej; [|by eexists].
  assert (e ∈ rejections promises) as Hin.
  { unfold rejections. apply list_elem_of_omap. exists p. by rewrite He. }
  rewrite Hrej in Hin. by apply elem_of_nil in Hin.
Qed.

Lemma Promise_all_fulfils {E : Environment} {A} (promises : list (Promise A)) results :
  settled (Promise_all promises) = Normal results →
  Forall2 (λ p result, settled p = Normal result) promises results.
Proof.
  unfold Promise_all. cbn [settled].
  destruct (rejections promises) as [|e0 others] eqn:Hrej; [|done].
  intros [= <-]. revert Hrej. unfold rejections, fulfilments.
  induction promises as [|p promises IH]; [constructor|].
  cbn [omap list_omap]. destruct (settled p) as [a|e] eqn:Hp; [|done].
  intros Hrej. constructor; [done | by apply IH].
Qed.

(** The consequence of the empty chunk of C10: [generateSpeech] throws on
    it, [Promise.all] rejects, and the audio of the whole text is lost. *)
Lemma empty_chunk_rejects_audio (E : Environment) (L : LameJs)
    fuel mode language st textToSpeak chunks :
  cleanTextForSpeech [] = [] →
  textToSpeakOf mode language st = Some textToSpeak →
  isLameJsReady st = true →
  TTS_CHARACTER_LIMIT < length textToSpeak →
  splitTextIntoChunks fuel textToSpeak TTS_CHARACTER_LIMIT = Some chunks →
  [] ∈ chunks →
  ∃ run,
    handleGenerateAudio fuel mode language st = Some run
    ∧ error (final run) = Some "No se pudo generar el audio para este texto."
    ∧ audioSrc (final run) = None.
Proof.
  intros Hclean Htext Hready Hlong Hsplit Hempty.
  unfold handleGenerateAudio. rewrite Htext, Hready. cbn [negb].
  unfold tryGenerateAudio.
  rewrite bool_decide_eq_false_2 by lia.
  rewrite Hsplit. cbn [mbind option_bind].
  rewrite bool_decide_eq_false_2
    by (destruct chunks; [by apply elem_of_nil in Hempty | done]).
  destruct (Promise_all_rejects
              ((λ chunk, generateSpeech chunk language) <$> chunks)
              (generateSpeech [] language)
              (ErrorObj "Text is empty after cleaning, cannot generate speech."))
    as [e He].
  - by apply (list_elem_of_fmap_2 (λ chunk, generateSpeech chunk language)).
  - unfold generateSpeech. by rewrite Hclean.
  - rewrite He. by eexists.
Qed.

(** ** Claims about the error paths *)

Lemma processAudio_rethrows {E : Environment} {L : LameJs} fuel e :
  processAudio fuel (Throw e) = Some (Throw e).
Proof. done. Qed.

(** A rejected speech request is a failed attempt, whatever the budget. *)
Lemma rejected_speech_fails {E : Environment} {L : LameJs}
    fuel textToSpeak language e :
  length textToSpeak ≤ TTS_CHARACTER_LIMIT →
  settled (generateSpeech textToSpeak language) = Throw e →
  tryGenerateAudio fuel textToSpeak language
  = Some (Attempted (invoked (generateSpeech textToSpeak language)) (Throw e)).
Proof.
  intros Hshort Hthrow. unfold tryGenerateAudio.
  rewrite bool_decide_eq_true_2 by done. rewrite Hthrow.
  cbn [fmap Completion_fmap]. by rewrite processAudio_rethrows.
Qed.

(** C5. An exception in the [try] block of a handler ends in its [catch]:
    a failed analysis leaves an error message, [analysisResults] null and
    [isProcessed] false; a failed audio generation leaves an error message
    and [audioSrc], [audioBlob] null; a failed translation leaves an error
    message and [translatedResults] as it was. *)
Theorem failures_surface_as_errors (E : Environment) (L : LameJs) :
  (∀ text st e,
      trim text ≠ [] →
      settled (analysisPromises text) = Throw e →
      error (final (handleAnalysis text st)) = Some (analysisErrorMessage e)
      ∧ analysisResults (final (handleAnalysis text st)) = None
      ∧ isProcessed (final (handleAnalysis text st)) = false)
  ∧ (∀ fuel mode language st textToSpeak pending e,
      textToSpeakOf mode language st = Some textToSpeak →
      isLameJsReady st = true →
      tryGenerateAudio fuel textToSpeak language
      = Some (Attempted pending (Throw e)) →
      ∃ run,
        handleGenerateAudio fuel mode language st = Some run
        ∧ error (final run) = Some "No se pudo generar el audio para este texto."
        ∧ audioSrc (final run) = None
        ∧ audioBlob (final run) = None)
  ∧ (∀ mode st spanishText e,
      textOf (analysisResults st) mode = Some spanishText →
      settled (translateText spanishText) = Throw e →
      error (final (handleTranslate mode st)) = Some "No se pudo traducir el texto."
      ∧ translatedResults (final (handleTranslate mode st)) = translatedResults st).
Proof.
  split_and!.
  - intros text st e Htext Hthrow. unfold handleAnalysis.
    rewrite bool_decide_eq_false_2 by done. by rewrite Hthrow.
  - intros fuel mode language st textToSpeak pending e Htext Hready Htry.
    unfold handleGenerateAudio. rewrite Htext, Hready, Htry. by eexists.
  - intros mode st spanishText e Htext Hthrow. unfold handleTranslate.
    by rewrite Htext, Hthrow.
Qed.

Lemma failures_surface_as_errors_witness :
  (error (final (handleAnalysis (E := offlineEnvironment) (js "Hola.") analysedState))
   = Some "Ocurrió un error al procesar el documento. Por favor, inténtalo de nuevo."
   ∧ analysisResults (final (handleAnalysis (E := offlineEnvironment) (js "Hola.") analysedState))
     = None
   ∧ isProcessed (final (handleAnalysis (E := offlineEnvironment) (js "Hola.") analysedState))
     = false)
  ∧ (∃ run,
       handleGenerateAudio (E := offlineEnvironment) (L := constantEncoder)
         10 Resumido es analysedState = Some run
       ∧ error (final run) = Some "No se pudo generar el audio para este texto."
       ∧ audioSrc (final run) = None
       ∧ audioBlob (final run) = None)
  ∧ (error (final (handleTranslate (E := offlineEnvironment) Resumido analysedState))
     = Some "No se pudo traducir el texto."
     ∧ translatedResults (final (handleTranslate (E := offlineEnvironment) Resumido analysedState))
       = translatedResults analysedState).
Proof.
  destruct (failures_surface_as_errors offlineEnvironment constantEncoder)
    as (Hanalysis & Haudio & Htranslate).
  split; [|split].
  - apply (Hanalysis (js "Hola.") analysedState (ErrorObj "Failed to fetch"));
      [vm_compute; discriminate | vm_compute; reflexivity].
  - eapply (Haudio 10 Resumido es analysedState (js "Hola. Que tal?"));
      vm_compute; reflexivity.
  - apply (Htranslate Resumido analysedState (js "Hola. Que tal?")
             (ErrorObj "Failed to fetch")); vm_compute; reflexivity.
Defined.



(** The two accepted types, when reading succeeds. *)
Lemma accepted_file_types (E : Environment) file st :
  (file_type file = "text/plain" →
   ∀ result, readAsText file = Some result →
     documentText (handleFileChange (Some file) st) = result
     ∧ fileName (handleFileChange (Some file) st) = file_name file
     ∧ error (handleFileChange (Some file) st) = None)
  ∧ (file_type file = "application/pdf" →
     ∀ text, extractTextFromPdf file = Normal text →
       documentText (handleFileChange (Some file) st) = text
       ∧ fileName (handleFileChange (Some file) st) = file_name file
       ∧ error (handleFileChange (Some file) st) = None).
Proof.
  split; intros Htype result Hread; unfold handleFileChange; rewrite Htype.
  - rewrite bool_decide_eq_true_2 by done. by rewrite Hread.
  - rewrite bool_decide_eq_false_2 by done.
    rewrite bool_decide_eq_true_2 by done. by rewrite Hread.
Qed.

(** C7. A file whose type is neither [text/plain] nor [application/pdf] is
    refused: the handler sets the error message and leaves [documentText]
    and [fileName] empty. *)
Theorem other_file_types_refused (E : Environment) file st :
  file_type file ≠ "text/plain" →
  file_type file ≠ "application/pdf" →
  error (handleFileChange (Some file) st)
  = Some "Por favor, sube un archivo .txt o .pdf."
  ∧ documentText (handleFileChange (Some file) st) = []
  ∧ fileName (handleFileChange (Some file) st) = [].
Proof.
  intros Htxt Hpdf. unfold handleFileChange.
  by rewrite !bool_decide_eq_false_2 by done.
Qed.

Lemma other_file_types_refused_witness :
  error (handleFileChange (E := echoEnvironment)
           (Some {| file_type := "image/png"; file_name := js "foto.png"; file_id := 0 |})
           analysedState)
  = Some "Por favor, sube un archivo .txt o .pdf.".
Proof.
  apply (other_file_types_refused echoEnvironment
           {| file_type := "image/png"; file_name := js "foto.png"; file_id := 0 |}
           analysedState); vm_compute; discriminate.
Defined.

(** ** Request traces *)

Lemma sequentialFrom_completions n completions rest :
  Forall (λ ev, ∃ r, ev = End_ r) completions →
  sequentialFrom n (completions ++ rest)
  = sequentialFrom (n - length completions) rest.
Proof.
  intros Hall. revert n.
  induction Hall as [|ev completions [r ->] _ IH]; intros n; simpl.
  - by rewrite Nat.sub_0_r.
  - rewrite IH. f_equal. lia.
Qed.

Lemma completions_are_ends reqs (completions : list Event) :
  completions ≡ₚ (End_ <$> reqs) →
  Forall (λ ev, ∃ r, ev = End_ r) completions
  ∧ length completions = length reqs.
Proof.
  intros Hperm. split.
  - rewrite Hperm. apply Forall_fmap, Forall_true. intros r. by exists r.
  - by rewrite Hperm, length_fmap.
Qed.

(** One [await]: the trace stays sequential exactly when at most one
    request was pending, and then no request is left in flight. *)
Lemma sequentialFrom_await reqs tr rest :
  awaitTrace reqs tr →
  sequentialFrom 0 (tr ++ rest)
  = bool_decide (length reqs ≤ 1) && sequentialFrom 0 rest.
Proof.
  intros [reqs' completions Hperm].
  apply completions_are_ends in Hperm as [Hends Hlen].
  destruct reqs' as [|r1 [|r2 reqs']]; cbn [fmap list_fmap app] in *.
  - destruct completions; [done | simpl in Hlen; lia].
  - cbn [sequentialFrom]. rewrite sequentialFrom_completions by done.
    rewrite Hlen. cbn [length Nat.sub].
    by rewrite !bool_decide_eq_true_2 by done.
  - cbn [sequentialFrom]. rewrite (bool_decide_eq_false_2 (1 = 0)) by done.
    rewrite (bool_decide_eq_false_2 (_ ≤ 1)) by (simpl; lia).
    by rewrite andb_false_r.
Qed.

Lemma sequential_awaits (groups : list (list GenerateContentParameters)) trs :
  Forall2 awaitTrace groups trs →
  sequential (concat trs) = true ↔ Forall (λ reqs, length reqs ≤ 1) groups.
Proof.
  unfold sequential.
  induction 1 as [|reqs tr groups trs Hawait _ IH]; cbn [concat].
  - split; [constructor | done].
  - rewrite (sequentialFrom_await reqs tr _ Hawait), andb_true_iff,
      bool_decide_eq_true, IH.
    split; [intros [? ?]; by constructor | by inversion 1].
Qed.

Lemma sequential_run run tr :
  runTrace run tr →
  sequential tr = true ↔ Forall singleRequest (awaited run).
Proof.
  intros (trs & Htrs & ->). rewrite (sequential_awaits _ _ Htrs).
  by rewrite Forall_fmap.
Qed.

(** Every run has a trace: the requests of each [await] complete in the
    order they were sent. *)
Lemma runTrace_exists run : ∃ tr, runTrace run tr.
Proof.
  unfold runTrace.
  enough (∀ groups, ∃ trs, Forall2 awaitTrace groups trs) as Hgroups.
  { destruct (Hgroups (requestsOf <$> awaited run)) as [trs Htrs].
    by exists (concat trs), trs. }
  induction groups as [|reqs groups [trs IH]]; [by exists []|].
  exists (((Begin <$> reqs) ++ (End_ <$> reqs)) :: trs).
  constructor; [by constructor | done].
Qed.

Section TraceFacts.
Context {E : Environment}.

Lemma handleAnalysis_awaited text st :
  trim text ≠ [] →
  ∃ r1 r2 r3,
    requestsOf <$> awaited (handleAnalysis text st) = [[r1; r2; r3]]
    ∧ call <$> concat (awaited (handleAnalysis text st))
      = [GenerateTextAnalysis text Completo;
         GenerateTextAnalysis text Resumido;
         GenerateTextAnalysis text PuntosClave].
Proof.
  intros Htext. unfold handleAnalysis.
  rewrite bool_decide_eq_false_2 by done. by eexists _, _, _.
Qed.

Lemma handleTranslate_awaited mode st :
  Forall singleRequest (awaited (handleTranslate mode st)).
Proof.
  unfold handleTranslate. destruct (textOf _ _); [|constructor].
  constructor; [|constructor]. unfold singleRequest. simpl. lia.
Qed.

Lemma generateSpeech_single text language :
  singleRequest (invoked (generateSpeech text language)).
Proof.
  unfold singleRequest, generateSpeech. case_bool_decide; simpl; lia.
Qed.
End TraceFacts.

(** ** Claim about the order of the API calls *)

(** C9 as stated fails.  The three analysis requests of one
    [handleAnalysis] are sent before any of them is awaited: in every trace
    of the run below a request begins while another is in flight. *)
Lemma analysis_requests_overlap :
  (∃ tr, runTrace (handleAnalysis (E := echoEnvironment) (js "Hola.") initialState) tr)
  ∧ (∀ tr,
       runTrace (handleAnalysis (E := echoEnvironment) (js "Hola.") initialState) tr →
       sequential tr = false).
Proof.
  split; [apply runTrace_exists|]. intros tr Htr.
  destruct (sequential tr) eqn:Hseq; [|done].
  apply (sequential_run _ _ Htr) in Hseq.
  destruct (handleAnalysis_awaited (E := echoEnvironment) (js "Hola.") initialState)
    as (r1 & r2 & r3 & Hawaited & _); [vm_compute; discriminate|].
  apply (Forall_fmap requestsOf (λ reqs, length reqs ≤ 1)) in Hseq.
  rewrite Hawaited in Hseq. apply Forall_inv in Hseq. simpl in Hseq. lia.
Qed.

(** C9, amended.  Requests are sequential only across [await]s: a run is
    sequential exactly when each of its [await]s had a single request
    pending.  That is so for [handleTranslate] and for [handleGenerateAudio]
    on a text of at most 4800 code units.  [handleAnalysis] has its three
    requests pending during one [await], and [handleGenerateAudio] on a
    longer text has the calls for all its chunks pending during one
    [await]. *)
Theorem requests_overlap_within_an_await (E : Environment) (L : LameJs) :
  (∀ run tr,
      runTrace run tr →
      sequential tr = true ↔ Forall singleRequest (awaited run))
  ∧ (∀ mode st, Forall singleRequest (awaited (handleTranslate mode st)))
  ∧ (∀ fuel mode language st textToSpeak run,
      textToSpeakOf mode language st = Some textToSpeak →
      length textToSpeak ≤ 4800 →
      handleGenerateAudio fuel mode language st = Some run →
      Forall singleRequest (awaited run))
  ∧ (∀ text st,
      trim text ≠ [] →
      ∃ r1 r2 r3, requestsOf <$> awaited (handleAnalysis text st) = [[r1; r2; r3]])
  ∧ (∀ fuel mode language st textToSpeak run,
      textToSpeakOf mode language st = Some textToSpeak →
      isLameJsReady st = true →
      4800 < length textToSpeak →
      handleGenerateAudio fuel mode language st = Some run →
      ∃ chunks,
        splitTextIntoChunks fuel textToSpeak 4800 = Some chunks
        ∧ length (awaited run) ≤ 1
        ∧ call <$> concat (awaited run)
          = (λ chunk, GenerateSpeech chunk language) <$> chunks).
Proof.
  split_and!.
  - apply sequential_run.
  - apply handleTranslate_awaited.
  - intros fuel mode language st textToSpeak run Htext Hshort.
    unfold handleGenerateAudio. rewrite Htext.
    destruct (isLameJsReady st); cbn [negb]; [|intros [= <-]; constructor].
    unfold tryGenerateAudio.
    rewrite bool_decide_eq_true_2 by done.
    destruct (processAudio _ _) as [[mp3Blob|e]|]; [| |done];
      intros [= <-]; (constructor; [apply generateSpeech_single | constructor]).
  - intros text st Htext.
    destruct (handleAnalysis_awaited text st Htext) as (r1 & r2 & r3 & ? & _).
    by exists r1, r2, r3.
  - intros fuel mode language st textToSpeak run Htext Hready Hlong Hrun.
    destruct (handleGenerateAudio_calls _ _ _ _ _ _ Htext Hready Hrun)
      as [_ Hchunks].
    destruct (Hchunks Hlong) as (chunks & Hsplit & Hcalls).
    exists chunks. split_and!; [done | | done].
    destruct (handleGenerateAudio_guarded _ _ _ _ _ _ Htext Hready Hrun)
      as (attempt & _ & -> & _).
    destruct attempt; simpl; lia.
Qed.

Lemma requests_overlap_within_an_await_witness :
  (∃ r1 r2 r3,
     requestsOf <$> awaited (handleAnalysis (E := echoEnvironment) (js "Hola.") initialState)
     = [[r1; r2; r3]])
  ∧ (∃ run,
       handleGenerateAudio (E := echoEnvironment) (L := constantEncoder)
         100 Resumido es analysedState = Some run
       ∧ Forall singleRequest (awaited run)).
Proof.
  destruct (requests_overlap_within_an_await echoEnvironment constantEncoder)
    as (_ & _ & Hshort & Hanalysis & _).
  split.
  - apply Hanalysis. vm_compute. discriminate.
  - eexists. split; [vm_compute; reflexivity|].
    apply (Hshort 100 Resumido es analysedState (js "Hola. Que tal?"));
      [vm_compute; reflexivity | vm_compute; lia | vm_compute; reflexivity].
Defined.

(** * Further properties of the code *)

(** ** The sentence pattern *)

Lemma dropWhile_app_stop {A} (p : A → bool) l l' :
  Forall (λ x, p x = true) l →
  (∀ x, head l' = Some x → p x = false) →
  dropWhile p (l ++ l') = l'.
Proof.
  intros Hl Hstop. induction Hl as [|x l Hx _ IH]; simpl.
  - destruct l' as [|y l']; [done|]. simpl. by rewrite (Hstop y).
  - by rewrite Hx.
Qed.

Lemma dropWhile_keep {A} (p : A → bool) l :
  (∀ x, head l = Some x → p x = false) → dropWhile p l = l.
Proof. intros. by apply (dropWhile_app_stop p [] l). Qed.

Lemma matchAt_sentence_parts s rest :
  matchAt sentencePattern s = Some rest →
  ∃ body punct,
    s = body ++ punct ++ rest
    ∧ body ≠ [] ∧ Forall (λ c, notTerminator c = true) body
    ∧ punct ≠ [] ∧ Forall (λ c, isTerminator c = true) punct
    ∧ (∀ c, head rest = Some c → isTerminator c = false).
Proof.
  destruct s as [|c t]; [done|]. rewrite matchAt_sentence.
  destruct (isTerminator c) eqn:Hc; [done|].
  destruct (dropWhile notTerminator t) as [|d r] eqn:Hbody; [done|].
  intros [= <-].
  destruct (dropWhile_split notTerminator t) as (body & Ht & Hbody').
  destruct (dropWhile_split isTerminator r) as (punct & Hr & Hpunct).
  rewrite Hbody in Ht.
  assert (isTerminator d = true) as Hd.
  { assert (notTerminator d = false) as Hd
      by (apply (dropWhile_head notTerminator t); by rewrite Hbody).
    unfold notTerminator in Hd. by apply negb_false_iff in Hd. }
  exists (c :: body), (d :: punct). split_and!; try done.
  - simpl. rewrite Ht. by do 3 f_equal.
  - constructor; [|done]. unfold notTerminator. by rewrite Hc.
  - by constructor.
  - intros x. apply dropWhile_head.
Qed.

(** X1. One attempt of the pattern at the head of a string succeeds exactly
    when the string starts with a sentence: the match is the longest run of
    non-terminators followed by the longest run of terminators, and what
    is left does not start with a terminator. *)
Theorem sentence_match_is_longest s rest :
  matchAt sentencePattern s = Some rest
  ↔ ∃ body punct,
      s = body ++ punct ++ rest
      ∧ body ≠ [] ∧ Forall (λ c, notTerminator c = true) body
      ∧ punct ≠ [] ∧ Forall (λ c, isTerminator c = true) punct
      ∧ (∀ c, head rest = Some c → isTerminator c = false).
Proof.
  split; [apply matchAt_sentence_parts|].
  intros (body & punct & -> & Hbody & Hnot & Hpunct & Hterm & Hrest).
  destruct body as [|c body]; [done|]. destruct punct as [|d punct]; [done|].
  apply Forall_cons in Hnot as [Hc Hnot]. apply Forall_cons in Hterm as [Hd Hterm].
  cbn [app]. rewrite matchAt_sentence.
  unfold notTerminator in Hc. apply negb_true_iff in Hc. rewrite Hc.
  rewrite (dropWhile_app_stop notTerminator body).
  - f_equal. by apply dropWhile_app_stop.
  - done.
  - intros x [= <-]. unfold notTerminator. by rewrite Hd.
Qed.

Lemma sentence_match_is_longest_witness :
  matchAt sentencePattern (js "Hola!? Que") = Some (js " Que").
Proof.
  apply sentence_match_is_longest. exists (js "Hola"), (js "!?").
  split_and!; [done | done | | done | | ].
  - by repeat constructor.
  - by repeat constructor.
  - by intros c [= <-].
Defined.

Lemma matchAllFrom_shapes n :
  ∀ s, Forall sentenceShape (matchAllFrom n sentencePattern s).
Proof.
  induction n as [|n IH]; intros s; [constructor|].
  destruct s as [|c t]; [constructor|]. cbn [matchAllFrom].
  destruct (matchAt sentencePattern (c :: t)) as [rest|] eqn:Hat; [|apply IH].
  constructor; [|apply IH].
  apply matchAt_sentence_parts in Hat
    as (body & punct & Heq & ? & ? & ? & ? & _).
  exists body, punct. split_and!; try done.
  rewrite Heq, !length_app.
  replace (length body + (length punct + length rest) - length rest)
    with (length (body ++ punct)) by (rewrite length_app; lia).
  by rewrite app_assoc, take_app_length.
Qed.

(** X2. The sentences found in a text are well formed and consecutive: the
    text is a run of terminators, then the sentences one after the other,
    then a tail without any terminator. *)
Theorem sentences_partition_text text :
  ∃ leading tail,
    text = leading ++ concat (stringMatchAll sentencePattern text) ++ tail
    ∧ Forall (λ c, isTerminator c = true) leading
    ∧ Forall (λ c, notTerminator c = true) tail
    ∧ Forall sentenceShape (stringMatchAll sentencePattern text).
Proof.
  destruct (matchAllFrom_sentences (length text) text)
    as (leading & tail & Heq & Hleading & Htail & _); [done|].
  exists leading, tail. split_and!; try done. apply matchAllFrom_shapes.
Qed.

(** ** What the chunks hold *)

(** X3. A text that does not start with a terminator and ends with one
    loses no character other than white space: apart from white space, the
    chunks read in order are the text. *)
Theorem terminated_text_keeps_characters fuel text maxLength chunks first final :
  head text = Some first → isTerminator first = false →
  last text = Some final → isTerminator final = true →
  splitTextIntoChunks fuel text maxLength = Some chunks →
  nonWhiteSpace (concat chunks) = nonWhiteSpace text.
Proof.
  intros Hhead Hfirst Hlast Hfinal Hsplit.
  destruct (matchAllFrom_sentences (length text) text)
    as (leading & tail & Heq & _ & Htail & Hleading); [done|].
  fold (stringMatchAll sentencePattern text) in Heq.
  rewrite Hleading in Heq by (intros c Hc; congruence).
  assert (tail = []) as ->.
  { destruct tail as [|c tail] using rev_ind; [done|].
    rewrite Heq, !app_assoc, last_snoc in Hlast. injection Hlast as ->.
    apply Forall_app in Htail as [_ Hc]. apply Forall_inv in Hc.
    unfold notTerminator in Hc. by rewrite Hfinal in Hc. }
  simpl in Heq. rewrite app_nil_r in Heq.
  rewrite (splitTextIntoChunks_content _ _ _ _ Hsplit); [by rewrite <- Heq|].
  intros Hnone. rewrite Hnone in Heq. by rewrite Heq in Hhead.
Qed.

Lemma terminated_text_keeps_characters_witness :
  nonWhiteSpace (concat [js "Hola. Que tal?"; js "Bien!"])
  = nonWhiteSpace (js "Hola.  Que tal?   Bien!").
Proof.
  apply (terminated_text_keeps_characters 30 (js "Hola.  Que tal?   Bien!") 14
           [js "Hola. Que tal?"; js "Bien!"] 72%N 33%N);
    vm_compute; reflexivity.
Defined.

(** *** The slices *)

Lemma ceiling_lt n m k :
  1 ≤ m → k < (n + (m - 1)) `div` m ↔ k * m < n.
Proof.
  intros Hm. split.
  - intros Hk. pose proof (Nat.Div0.mul_div_le (n + (m - 1)) m). nia.
  - intros Hk. apply (Nat.div_le_lower_bound _ m (S k)); [lia | nia].
Qed.

Lemma slices_exact (s : jsstring) maxLength fuel :
  1 ≤ maxLength →
  ∀ k chunks st',
    while fuel (sliceCond s) (sliceBody s maxLength) (k * maxLength, chunks)
    = Some st' →
    st'.2 = chunks
            ++ (sliceAt s maxLength
                  <$> seq k ((length s + (maxLength - 1)) `div` maxLength - k)).
Proof.
  intros Hm. induction fuel as [|fuel IH]; intros k chunks st' Hrun; [done|].
  simpl in Hrun. unfold sliceCond at 1 in Hrun. simpl in Hrun.
  pose proof (ceiling_lt (length s) maxLength k Hm) as Hceil.
  case_bool_decide as Hk.
  - unfold sliceBody at 2 in Hrun. simpl in Hrun.
    rewrite substring_slice in Hrun by lia.
    replace (k * maxLength + maxLength) with (S k * maxLength) in Hrun by lia.
    apply IH in Hrun. rewrite Hrun, <- app_assoc. f_equal.
    apply Hceil in Hk.
    replace ((length s + (maxLength - 1)) `div` maxLength - k)
      with (S ((length s + (maxLength - 1)) `div` maxLength - S k)) by lia.
    done.
  - injection Hrun as <-. simpl.
    replace ((length s + (maxLength - 1)) `div` maxLength - k) with 0
      by (destruct (decide (k < (length s + (maxLength - 1)) `div` maxLength));
          [apply Hceil in l; lia | lia]).
    by rewrite app_nil_r.
Qed.

Lemma pushSlices_exact fuel (s : jsstring) maxLength chunks chunks' :
  1 ≤ maxLength →
  pushSlices fuel s maxLength chunks = Some chunks' →
  chunks' = chunks
            ++ (sliceAt s maxLength
                  <$> seq 0 ((length s + (maxLength - 1)) `div` maxLength)).
Proof.
  intros Hm. unfold pushSlices.
  destruct (while _ _ _ _) as [st'|] eqn:Hw; [|done]. simpl. intros [= <-].
  apply (slices_exact s maxLength fuel Hm 0) in Hw. by rewrite Nat.sub_0_r in Hw.
Qed.

(** X4. A text in which the pattern finds no sentence is cut every
    [maxLength] code units: chunk [j] is the code units from [j * maxLength]
    up to [(j + 1) * maxLength], and there are [ceil (length / maxLength)]
    chunks. *)
Theorem text_without_sentences_is_sliced fuel text maxLength chunks :
  1 ≤ maxLength →
  stringMatchAll sentencePattern text = [] →
  splitTextIntoChunks fuel text maxLength = Some chunks →
  chunks = sliceAt text maxLength
             <$> seq 0 ((length text + (maxLength - 1)) `div` maxLength).
Proof.
  intros Hm Hnone. unfold splitTextIntoChunks. rewrite Hnone. simpl.
  case_bool_decide as Hlong.
  - intros Hpush. by apply pushSlices_exact in Hpush.
  - intros [= <-]. case_bool_decide as Hnil.
    + subst. simpl. by rewrite Nat.div_small by lia.
    + assert ((length text + (maxLength - 1)) `div` maxLength = 1) as ->.
      { assert (0 < length text) by (destruct text; [done | simpl; lia]).
        apply Nat.le_antisymm.
        - apply Nat.lt_succ_r, Nat.Div0.div_lt_upper_bound. lia.
        - apply Nat.div_le_lower_bound; lia. }
      simpl. unfold sliceAt. by rewrite Nat.mul_0_l, drop_0, take_ge by lia.
Qed.

Lemma text_without_sentences_is_sliced_witness :
  [js "abc"; js "def"; js "gh"]
  = sliceAt (js "abcdefgh") 3
      <$> seq 0 ((length (js "abcdefgh") + (3 - 1)) `div` 3).
Proof.
  apply (text_without_sentences_is_sliced 10 (js "abcdefgh") 3);
    [lia | vm_compute; reflexivity ..].
Defined.

(** *** When every chunk is non-empty *)

Lemma sentenceStep_nonempty fuel maxLength st sentence st' :
  1 ≤ maxLength →
  length (trim sentence) ≠ maxLength →
  Forall (λ chunk, chunk ≠ []) st.1 →
  sentenceStep fuel maxLength st sentence = Some st' →
  Forall (λ chunk : jsstring, chunk ≠ []) st'.1.
Proof.
  destruct st as [chunks currentChunk]. intros Hm Hexact Hchunks.
  unfold sentenceStep. cbn [fst snd] in *.
  case_bool_decide as Hempty; [by intros [= <-]|].
  case_bool_decide as Hlong.
  - destruct (pushSlices _ _ _ _) as [chunks'|] eqn:Hpush; [|done].
    simpl. intros [= <-]. cbn [fst].
    apply pushSlices_spec in Hpush as (pieces & -> & _ & _ & Hpieces).
    apply Forall_app. split; [|by apply Hpieces].
    case_bool_decide as Hcur; [|done]. cbn [fst].
    apply Forall_app. split; [done|]. constructor; [|constructor].
    intros ->. simpl in Hcur. lia.
  - case_bool_decide as Hjoin; intros [= <-]; cbn [fst]; [|done].
    apply Forall_app. split; [done|]. constructor; [|constructor].
    intros ->. simpl in Hjoin. lia.
Qed.

Lemma forSentences_nonempty fuel maxLength sentences :
  1 ≤ maxLength →
  Forall (λ sentence, length (trim sentence) ≠ maxLength) sentences →
  ∀ st st',
    Forall (λ chunk, chunk ≠ []) st.1 →
    forSentences fuel maxLength sentences st = Some st' →
    Forall (λ chunk : jsstring, chunk ≠ []) st'.1.
Proof.
  intros Hm. induction 1 as [|sentence rest Hs _ IH]; intros st st' Hst; simpl.
  - by intros [= <-].
  - destruct (sentenceStep _ _ _ _) as [st1|] eqn:Hstep; [|done]. simpl.
    apply IH. by eapply sentenceStep_nonempty.
Qed.

(** X5. With [maxLength >= 1], an empty chunk can only come from a sentence
    whose trimmed length is exactly [maxLength]: when no sentence of the
    text has that length, every chunk is non-empty. *)
Theorem chunks_nonempty_without_exact_fit fuel text maxLength chunks :
  1 ≤ maxLength →
  Forall (λ sentence, length (trim sentence) ≠ maxLength)
         (stringMatchAll sentencePattern text) →
  splitTextIntoChunks fuel text maxLength = Some chunks →
  Forall (λ chunk, chunk ≠ []) chunks.
Proof.
  intros Hm Hexact. unfold splitTextIntoChunks.
  case_bool_decide as Hnone.
  - case_bool_decide as Hlong.
    + intros Hpush.
      apply pushSlices_spec in Hpush as (pieces & -> & _ & _ & Hpieces).
      by apply Hpieces.
    + intros [= <-]. case_bool_decide; [constructor|]. by repeat constructor.
  - destruct (forSentences _ _ _ _) as [st|] eqn:Hloop; [|done]. simpl.
    intros [= <-].
    apply (forSentences_nonempty _ _ _ Hm Hexact) in Hloop; [|constructor].
    case_bool_decide as Hcur; [|done].
    apply Forall_app. split; [done|]. constructor; [|constructor].
    intros Hnil. rewrite Hnil in Hcur. simpl in Hcur. lia.
Qed.

Lemma chunks_nonempty_without_exact_fit_witness :
  Forall (λ chunk, chunk ≠ []) [js "a."; js "cde"; js "fgh"; js "."; js "i."].
Proof.
  apply (chunks_nonempty_without_exact_fit 10 (js "a. cdefgh. i.") 3);
    [lia | vm_compute; by repeat constructor | vm_compute; reflexivity].
Defined.

(** *** Sentences that fit are kept whole *)

Lemma joinWithSpace_nonempty (group : list jsstring) :
  Forall (λ sentence, sentence ≠ []) group →
  0 < length (joinWithSpace group) ↔ group ≠ [].
Proof.
  intros Hgroup. destruct Hgroup as [|first others Hfirst _]; simpl.
  - split; [lia | done].
  - split; [done|]. intros _. rewrite length_app.
    destruct first; [done | simpl; lia].
Qed.

Lemma joinWithSpace_snoc (group : list jsstring) (sentence : jsstring) :
  Forall (λ sentence, sentence ≠ []) group →
  joinWithSpace (group ++ [sentence])
  = joinWithSpace group
      ++ (if bool_decide (0 < length (joinWithSpace group)) then [32%N] else [])
      ++ sentence.
Proof.
  intros Hgroup. pose proof (joinWithSpace_nonempty group Hgroup) as Hne.
  destruct group as [|first others]; [simpl; by rewrite app_nil_r|].
  rewrite bool_decide_eq_true_2 by (by apply Hne).
  cbn [app joinWithSpace]. rewrite bind_app. cbn [mbind list_bind].
  by rewrite app_nil_r, <- !app_assoc.
Qed.


Lemma sentenceStep_groups fuel maxLength st sentence st' groups current :
  groupedBy st groups current →
  length (trim sentence) ≤ maxLength → trim sentence ≠ [] →
  sentenceStep fuel maxLength st sentence = Some st' →
  ∃ groups' current',
    groupedBy st' groups' current'
    ∧ concat groups' ++ current' = (concat groups ++ current) ++ [trim sentence].
Proof.
  destruct st as [chunks currentChunk].
  intros (Hchunks & Hcur & Hcurrent) Hfits Htrim.
  cbn [fst snd] in *. unfold sentenceStep. cbn [fst snd].
  rewrite bool_decide_eq_false_2
    by (destruct (trim sentence); [done | simpl; lia]).
  rewrite bool_decide_eq_false_2 by lia.
  case_bool_decide as Hjoin; intros [= <-].
  - exists (groups ++ [current]), [trim sentence]. split.
    + split_and!; cbn [fst snd].
      * by rewrite fmap_app, Hchunks, Hcur.
      * simpl. by rewrite app_nil_r.
      * by constructor.
    + rewrite concat_app. simpl. by rewrite app_nil_r.
  - exists groups, (current ++ [trim sentence]). split.
    + split_and!; cbn [fst snd]; [done | |].
      * by rewrite joinWithSpace_snoc, <- Hcur.
      * apply Forall_app. split; [done | by constructor].
    + by rewrite !app_assoc.
Qed.

Lemma forSentences_groups fuel maxLength sentences :
  Forall (λ sentence, length (trim sentence) ≤ maxLength ∧ trim sentence ≠ [])
         sentences →
  ∀ st st' groups current,
    groupedBy st groups current →
    forSentences fuel maxLength sentences st = Some st' →
    ∃ groups' current',
      groupedBy st' groups' current'
      ∧ concat groups' ++ current'
        = (concat groups ++ current) ++ (trim <$> sentences).
Proof.
  induction 1 as [|sentence rest [Hfits Htrim] _ IH];
    intros st st' groups current Hst; simpl.
  - intros [= <-]. exists groups, current. by rewrite app_nil_r.
  - destruct (sentenceStep _ _ _ _) as [st1|] eqn:Hstep; [|done]. simpl.
    intros Hrest.
    destruct (sentenceStep_groups _ _ _ _ _ _ _ Hst Hfits Htrim Hstep)
      as (groups1 & current1 & Hst1 & Heq1).
    destruct (IH _ _ _ _ Hst1 Hrest) as (groups' & current' & Hst' & Heq').
    exists groups', current'. split; [done|].
    by rewrite Heq', Heq1, <- !app_assoc.
Qed.

Lemma trim_terminated (sentence : jsstring) c :
  c ∈ sentence → isTerminator c = true → trim sentence ≠ [].
Proof.
  intros Hin Hc Htrim. apply terminator_not_whitespace in Hc.
  assert (c ∈ nonWhiteSpace sentence) as Hc'
    by (unfold nonWhiteSpace; by apply list_elem_of_filter).
  rewrite <- nonWhiteSpace_trim, Htrim in Hc'. by apply elem_of_nil in Hc'.
Qed.

(** X6. When every sentence of the text fits in [maxLength] once trimmed,
    no sentence is cut: the chunks are groups of whole trimmed sentences,
    taken in order and joined by single spaces. *)
Theorem fitting_sentences_are_kept_whole fuel text maxLength chunks :
  stringMatchAll sentencePattern text ≠ [] →
  Forall (λ sentence, length (trim sentence) ≤ maxLength)
         (stringMatchAll sentencePattern text) →
  splitTextIntoChunks fuel text maxLength = Some chunks →
  ∃ groups,
    chunks = joinWithSpace <$> groups
    ∧ concat groups = trim <$> stringMatchAll sentencePattern text.
Proof.
  intros Hsome Hfit. unfold splitTextIntoChunks.
  rewrite bool_decide_eq_false_2
    by (by destruct (stringMatchAll sentencePattern text)).
  destruct (forSentences _ _ _ _) as [st|] eqn:Hloop; [|done]. simpl.
  intros [= <-].
  destruct (forSentences_groups fuel maxLength
              (stringMatchAll sentencePattern text))
    with (st := ([] : list jsstring, [] : jsstring)) (st' := st)
         (groups := [] : list (list jsstring)) (current := [] : list jsstring)
    as (groups & current & (Hchunks & Hcur & Hcurrent) & Heq); [| done | done |].
  - pose proof (matchAllFrom_terminated (length text) text) as Hterm.
    fold (stringMatchAll sentencePattern text) in Hterm.
    rewrite Forall_forall in Hfit, Hterm. apply Forall_forall.
    intros sentence Hin. split; [by apply Hfit|].
    destruct (Hterm sentence Hin) as (c & Hc & Hc').
    by eapply trim_terminated.
  - simpl in Heq. pose proof (joinWithSpace_nonempty current Hcurrent) as Hne.
    rewrite <- Hcur in Hne. case_bool_decide as Hlast.
    + exists (groups ++ [current]). split.
      * by rewrite fmap_app, Hchunks, Hcur.
      * rewrite concat_app. simpl. by rewrite app_nil_r.
    + exists groups. split; [done|].
      destruct current; [by rewrite app_nil_r in Heq|].
      exfalso. apply Hlast, Hne. done.
Qed.

Lemma fitting_sentences_are_kept_whole_witness :
  ∃ groups,
    [js "Hola. Que tal?"; js "Bien!"] = joinWithSpace <$> groups
    ∧ concat groups
      = trim <$> stringMatchAll sentencePattern (js "Hola. Que tal? Bien!").
Proof.
  apply (fitting_sentences_are_kept_whole 20 (js "Hola. Que tal? Bien!") 14);
    [vm_compute; discriminate | vm_compute; repeat constructor; lia
    | vm_compute; reflexivity].
Defined.

(** ** The dead branch of [handleGenerateAudio] *)

(** X7. A text above the limit is never split into zero chunks, so past
    its guards [handleGenerateAudio] always reaches its [await]: the run has
    exactly one group of pending calls, and the warning
    "No se pudo procesar el texto para generar audio." is never shown. *)
Theorem audio_warning_is_unreachable (E : Environment) (L : LameJs)
    fuel mode language st textToSpeak run :
  textToSpeakOf mode language st = Some textToSpeak →
  isLameJsReady st = true →
  handleGenerateAudio fuel mode language st = Some run →
  warning (final run) = None
  ∧ isGeneratingAudio (final run) = false
  ∧ ∃ pending, awaited run = [pending] ∧ pending ≠ [].
Proof.
  intros Htext Hready. unfold handleGenerateAudio. rewrite Htext, Hready.
  cbn [negb].
  destruct (tryGenerateAudio fuel textToSpeak language) as [attempt|] eqn:Htry;
    [|done].
  simpl. intros [= <-].
  destruct attempt as [|pending outcome].
  - by apply tryGenerateAudio_attempts in Htry.
  - assert (pending ≠ []) as Hpending.
    { intros ->. apply tryGenerateAudio_calls in Htry
        as [[_ Hcalls] | (Hlong & chunks & Hsplit & Hcalls)]; [done|].
      destruct chunks; [|done].
      apply splitTextIntoChunks_nonempty in Hsplit; [done|].
      intros ->. simpl in Hlong. lia. }
    destruct outcome; split_and!; try done; by exists pending.
Qed.

Lemma audio_warning_is_unreachable_witness :
  ∃ run,
    handleGenerateAudio (E := echoEnvironment) (L := constantEncoder)
      100 Resumido es analysedState = Some run
    ∧ warning (final run) = None.
Proof.
  eexists. split; [vm_compute; reflexivity|].
  eapply (audio_warning_is_unreachable echoEnvironment constantEncoder
            100 Resumido es analysedState (js "Hola. Que tal?"));
    vm_compute; reflexivity.
Defined.

(** ** The block loop of [createMp3Blob] *)

Lemma subarray_block {A} (l : list A) i size :
  i ≤ length l → subarray l i (i + size) = take size (drop i l).
Proof.
  intros Hi. unfold subarray. rewrite (Nat.min_l i) by lia.
  destruct (decide (i + size ≤ length l)).
  - rewrite Nat.min_l by lia. f_equal. lia.
  - rewrite Nat.min_r by lia. rewrite !take_ge; [done | rewrite length_drop; lia ..].
Qed.

Lemma concat_blocks {A} (l : list A) size n :
  ∀ k, concat (blockAt l size <$> seq k n) = take (n * size) (drop (k * size) l).
Proof.
  induction n as [|n IH]; intros k; [done|].
  cbn [seq fmap list_fmap concat]. rewrite IH. unfold blockAt.
  replace (S k * size) with (k * size + size) by lia.
  rewrite <- drop_drop, take_take_drop. f_equal.
Qed.

Lemma blocks_cover {A} (l : list A) size :
  1 ≤ size →
  concat (blockAt l size <$> seq 0 ((length l + (size - 1)) `div` size)) = l.
Proof.
  intros Hsize. rewrite concat_blocks. simpl. apply take_ge.
  destruct (decide (length l ≤ (length l + (size - 1)) `div` size * size));
    [done|].
  assert ((length l + (size - 1)) `div` size * size < length l) as Hlt by lia.
  apply (ceiling_lt _ _ _ Hsize) in Hlt. lia.
Qed.

Lemma blocks_sizes {A} (l : list A) size :
  1 ≤ size →
  Forall (λ block, 0 < length block ≤ size)
         (blockAt l size <$> seq 0 ((length l + (size - 1)) `div` size)).
Proof.
  intros Hsize. apply Forall_fmap, Forall_forall. intros j Hj.
  apply elem_of_seq in Hj as [_ Hj]. simpl in Hj.
  apply (ceiling_lt _ _ _ Hsize) in Hj.
  unfold blockAt. simpl. rewrite length_take, length_drop. lia.
Qed.

Section BlockLoop.
Context {L : LameJs}.

Lemma encode_blocks (pcm : list Z) fuel :
  ∀ k enc mp3Data st',
    while fuel (encodeCond pcm) (encodeBody pcm)
      (k * sampleBlockSize, enc, mp3Data) = Some st' →
    (st'.1.2, st'.2)
    = foldl encodeStep (enc, mp3Data)
        (blockAt pcm sampleBlockSize
           <$> seq k ((length pcm + (sampleBlockSize - 1)) `div` sampleBlockSize - k)).
Proof.
  assert (1 ≤ sampleBlockSize) as Hsize by (unfold sampleBlockSize; lia).
  induction fuel as [|fuel IH]; intros k enc mp3Data st' Hrun; [done|].
  cbn [while] in Hrun. unfold encodeCond at 1 in Hrun. cbn [fst snd] in Hrun.
  pose proof (ceiling_lt (length pcm) sampleBlockSize k Hsize) as Hceil.
  case_bool_decide as Hk.
  - unfold encodeBody at 2 in Hrun. cbn [fst snd] in Hrun.
    rewrite subarray_block in Hrun by lia.
    replace (k * sampleBlockSize + sampleBlockSize)
      with (S k * sampleBlockSize) in Hrun by lia.
    apply IH in Hrun. rewrite Hrun. apply Hceil in Hk.
    replace ((length pcm + (sampleBlockSize - 1)) `div` sampleBlockSize - k)
      with (S ((length pcm + (sampleBlockSize - 1)) `div` sampleBlockSize - S k))
      by lia.
    done.
  - injection Hrun as <-. cbn [fst snd].
    replace ((length pcm + (sampleBlockSize - 1)) `div` sampleBlockSize - k)
      with 0; [done|].
    destruct (decide (k < (length pcm + (sampleBlockSize - 1)) `div` sampleBlockSize))
      as [Hlt|]; [apply Hceil in Hlt; lia | lia].
Qed.

Lemma encodeStep_parts (st : Mp3Encoder * list (list N)) blocks :
  Forall (λ part, part ≠ []) st.2 →
  Forall (λ part : list N, part ≠ []) (foldl encodeStep st blocks).2.
Proof.
  revert st. induction blocks as [|block blocks IH]; intros st Hst; [done|].
  cbn [foldl]. apply IH. unfold encodeStep. cbn [snd].
  case_bool_decide as Hlen; [|done].
  apply Forall_app. split; [done|]. constructor; [|constructor].
  intros Hnil. rewrite Hnil in Hlen. simpl in Hlen. lia.
Qed.
End BlockLoop.

(** What [createMp3Blob] computes, as one fold over the blocks. *)
Lemma createMp3Blob_blob (L : LameJs)
    fuel pcmData sampleRate numChannels blob :
  createMp3Blob fuel pcmData sampleRate numChannels = Some (Normal blob) →
  let pcm := samplesOf pcmData in
  let blocks :=
    blockAt pcm sampleBlockSize
      <$> seq 0 ((length pcm + (sampleBlockSize - 1)) `div` sampleBlockSize) in
  let st := foldl encodeStep (newMp3Encoder numChannels sampleRate 128%N, []) blocks in
  concat blocks = pcm
  ∧ Forall (λ block, 0 < length block ≤ sampleBlockSize) blocks
  ∧ blob = {| blobParts :=
                if bool_decide (0 < length (flush st.1))
                then st.2 ++ [flush st.1] else st.2;
              blobType := "audio/mpeg" |}
  ∧ Forall (λ part, part ≠ []) (blobParts blob).
Proof.
  assert (1 ≤ sampleBlockSize) as Hsize by (unfold sampleBlockSize; lia).
  intros Hblob pcm blocks st. unfold createMp3Blob in Hblob.
  destruct (Int16Array_of pcmData) as [pcm'|e] eqn:Hpcm; [|done].
  assert (pcm' = pcm) as ->.
  { unfold Int16Array_of in Hpcm. by case_bool_decide; simplify_eq. }
  destruct (while _ _ _ _) as [st'|] eqn:Hloop; [|done].
  simpl in Hblob. injection Hblob as <-.
  apply (encode_blocks pcm fuel 0) in Hloop. rewrite Nat.sub_0_r in Hloop.
  fold blocks in Hloop. fold st in Hloop.
  assert (st'.1.2 = st.1 ∧ st'.2 = st.2) as [-> ->]
    by (by rewrite <- Hloop).
  assert (Forall (λ part : list N, part ≠ []) st.2) as Hparts
    by (apply encodeStep_parts; constructor).
  split_and!.
  - by apply blocks_cover.
  - by apply blocks_sizes.
  - done.
  - cbn [blobParts]. case_bool_decide as Hflush; [|done].
    apply Forall_app. split; [done|]. constructor; [|constructor].
    intros Hnil. rewrite Hnil in Hflush. simpl in Hflush. lia.
Qed.

(** X8. [createMp3Blob] feeds the encoder the samples in order, in blocks
    of 1152 (the last one possibly shorter, none empty), then flushes it;
    the blob holds, in order, the non-empty outputs of these calls and is
    typed [audio/mpeg]. *)
Theorem createMp3Blob_encodes_blocks (L : LameJs)
    fuel pcmData sampleRate numChannels blob :
  createMp3Blob fuel pcmData sampleRate numChannels = Some (Normal blob) →
  let pcm := samplesOf pcmData in
  let blocks :=
    blockAt pcm sampleBlockSize
      <$> seq 0 ((length pcm + (sampleBlockSize - 1)) `div` sampleBlockSize) in
  let st := foldl encodeStep (newMp3Encoder numChannels sampleRate 128%N, []) blocks in
  concat blocks = pcm
  ∧ Forall (λ block, 0 < length block ≤ sampleBlockSize) blocks
  ∧ blob = {| blobParts :=
                if bool_decide (0 < length (flush st.1))
                then st.2 ++ [flush st.1] else st.2;
              blobType := "audio/mpeg" |}
  ∧ Forall (λ part, part ≠ []) (blobParts blob).
Proof. apply createMp3Blob_blob. Qed.

Lemma createMp3Blob_encodes_blocks_witness :
  Forall (λ part, part ≠ [])
         (blobParts {| blobParts := [[255; 251]; [255; 251]]%N;
                       blobType := "audio/mpeg" |}).
Proof.
  apply (createMp3Blob_encodes_blocks constantEncoder 3 (replicate 4608 0%N)
           24000%N 1%N).
  vm_compute. reflexivity.
Defined.

(** ** From speech results to the MP3 *)

Lemma mapM_Normal {A B} (f : A → Completion B) l k :
  Forall2 (λ x y, f x = Normal y) l k → mapM f l = Normal k.
Proof.
  induction 1 as [|x y l k Hx _ IH]; [done|].
  cbn [mapM]. rewrite Hx. cbn [mbind Completion_bind].
  change (mapM f l) with (mapM f l) in IH. by rewrite IH.
Qed.

Lemma mapM_Throw {A B} (f : A → Completion B) l x e :
  x ∈ l → f x = Throw e → ∃ e', mapM f l = Throw e'.
Proof.
  intros Hin Hx. induction Hin as [x l | x y l _ IH].
  - cbn [mapM]. rewrite Hx. by eexists.
  - cbn [mapM]. destruct (f y) as [b|e0]; [|by eexists].
    cbn [mbind Completion_bind]. destruct (IH Hx) as [e' ->]. by eexists.
Qed.

Lemma Promise_all_Normal {E : Environment} {A} (promises : list (Promise A)) values :
  Forall2 (λ p value, settled p = Normal value) promises values →
  settled (Promise_all promises) = Normal values.
Proof.
  intros Hall. unfold Promise_all. cbn [settled].
  assert (rejections promises = [] ∧ fulfilments promises = values) as [-> ->];
    [|done].
  unfold rejections, fulfilments.
  induction Hall as [|p value promises values Hp _ [IH1 IH2]]; [done|].
  cbn [omap list_omap]. rewrite Hp. by rewrite IH1, IH2.
Qed.

(** X9. The audio is assembled in the order of the chunks, not in the
    order in which the requests complete: when every speech call answers
    and every answer decodes, the MP3 is made from the decoded answers
    concatenated in call order.  When a call is rejected or an answer does
    not decode, the whole attempt throws. *)
Theorem audio_is_assembled_in_call_order (E : Environment) (L : LameJs)
    fuel (promises : list (Promise jsstring)) :
  (∀ decoded,
      Forall2 (λ p chars, ∃ b64, settled p = Normal b64 ∧ atob b64 = Normal chars)
              promises decoded →
      processAudio fuel (settled (Promise_all promises))
      = createMp3Blob fuel (concat (Uint8Array_from <$> decoded)) 24000%N 1%N)
  ∧ (Exists (λ p, match settled p with
                  | Throw _ => True
                  | Normal b64 => ∃ e, atob b64 = Throw e
                  end) promises →
     ∃ e, processAudio fuel (settled (Promise_all promises)) = Some (Throw e)).
Proof.
  split.
  - intros decoded Hall.
    assert (∃ results,
              Forall2 (λ p b64, settled p = Normal b64) promises results
              ∧ Forall2 (λ b64 buffer, decodeBase64 b64 = Normal buffer)
                        results (Uint8Array_from <$> decoded))
      as (results & Hresults & Hdecoded).
    { induction Hall as [|p chars promises decoded (b64 & Hp & Hb64) _
                           (results & ? & ?)].
      - by exists [].
      - exists (b64 :: results). split; [by constructor|].
        constructor; [|done]. unfold decodeBase64. by rewrite Hb64. }
    rewrite (Promise_all_Normal _ _ Hresults). unfold processAudio.
    cbn [mbind Completion_bind]. rewrite (mapM_Normal _ _ _ Hdecoded).
    cbn [mbind Completion_bind]. by rewrite combinePcm_concat.
  - intros Hbad.
    destruct (settled (Promise_all promises)) as [results|e] eqn:Hall;
      [|by exists e].
    apply Promise_all_fulfils in Hall.
    assert (∃ b64 e, b64 ∈ results ∧ decodeBase64 b64 = Throw e)
      as (b64 & e & Hin & Hb64).
    { induction Hall as [|p b64 promises results Hp _ IH].
      - by apply Exists_nil in Hbad.
      - apply Exists_cons in Hbad as [Hhere | Hlater].
        + rewrite Hp in Hhere. destruct Hhere as [e He].
          exists b64, e. split; [left|]. unfold decodeBase64. by rewrite He.
        + destruct (IH Hlater) as (b64' & e & ? & ?).
          exists b64', e. split; [by right | done]. }
    destruct (mapM_Throw decodeBase64 results b64 e Hin Hb64) as [e' He'].
    exists e'. unfold processAudio. cbn [mbind Completion_bind].
    by rewrite He'.
Qed.

Lemma audio_is_assembled_in_call_order_witness :
  processAudio (E := echoEnvironment) (L := constantEncoder) 3
    (settled (Promise_all (E := echoEnvironment)
       [ {| invoked := []; settled := Normal [1; 2]%N |};
         {| invoked := []; settled := Normal [3; 4]%N |} ]))
  = createMp3Blob (L := constantEncoder) 3
      (concat (Uint8Array_from <$> [[1; 2]; [3; 4]]%N)) 24000%N 1%N.
Proof.
  apply (proj1 (audio_is_assembled_in_call_order echoEnvironment
                  constantEncoder 3 _)).
  repeat constructor; by eexists.
Defined.

(** ** The service functions *)

(** X10. [generateSpeech] never sends an empty text and never resolves
    with empty audio: a request goes out exactly when the cleaned text is
    non-empty, it carries that cleaned text with the voice of the language,
    and the promise fulfils only with non-empty inline data of a response
    that was not blocked. *)
Theorem generateSpeech_never_empty (E : Environment) text language :
  (cleanTextForSpeech text = [] →
   requestsOf (invoked (generateSpeech text language)) = []
   ∧ settled (generateSpeech text language)
     = Throw (ErrorObj "Text is empty after cleaning, cannot generate speech."))
  ∧ (cleanTextForSpeech text ≠ [] →
     ∃ params,
       requestsOf (invoked (generateSpeech text language)) = [params]
       ∧ body params = cleanTextForSpeech text
       ∧ model params = "gemini-2.5-flash-preview-tts"
       ∧ voiceName params
         = Some match language with es => "Kore" | en => "Zephyr" end
       ∧ ∀ base64Audio,
           settled (generateSpeech text language) = Normal base64Audio →
           base64Audio ≠ []
           ∧ ∃ response,
               generateContent params = Normal response
               ∧ inlineData response = Some base64Audio
               ∧ (blockReason response = None ∨ blockReason response = Some "")).
Proof.
  unfold generateSpeech. split; intros Hclean.
  - by rewrite bool_decide_eq_true_2.
  - rewrite bool_decide_eq_false_2 by done. eexists. split_and!; try done.
    intros base64Audio. cbn [settled].
    destruct (generateContent _) as [response|e]; [|done].
    cbn [mbind Completion_bind].
    destruct (blockReason response) as [[|c reason]|] eqn:Hblock; [| done |];
      (destruct (inlineData response) as [[|c' audio]|] eqn:Hdata; [done | | done];
       intros [= <-]; split; [done|]; exists response; split_and!; auto).
Qed.

Lemma generateSpeech_never_empty_witness :
  ∃ params,
    requestsOf (invoked (generateSpeech (E := echoEnvironment) (js " Hola. ") es))
    = [params]
    ∧ body params = js "Hola.".
Proof.
  destruct (proj2 (generateSpeech_never_empty echoEnvironment (js " Hola. ") es))
    as (params & Hreq & Hbody & _); [vm_compute; discriminate|].
  exists params. split; [done|]. rewrite Hbody. vm_compute. reflexivity.
Defined.

(** ** The guard and the resets of [handleAnalysis] *)

Lemma nonWhiteSpace_nil (s : jsstring) :
  nonWhiteSpace s = [] ↔ Forall (λ c, isWhiteSpace c = true) s.
Proof.
  unfold nonWhiteSpace. induction s as [|c s IH]; [by split|].
  destruct (isWhiteSpace c) eqn:Hc.
  - rewrite filter_cons_False by (by rewrite Hc). rewrite IH.
    split; [by constructor | by inversion 1].
  - rewrite filter_cons_True by done. split; [done|].
    inversion 1; congruence.
Qed.

Lemma trim_nil (s : jsstring) :
  trim s = [] ↔ Forall (λ c, isWhiteSpace c = true) s.
Proof.
  split.
  - intros Htrim. apply nonWhiteSpace_nil.
    by rewrite <- nonWhiteSpace_trim, Htrim.
  - intros Hblank. unfold trim, trimStart, trimEnd.
    by rewrite (dropWhile_all _ _ Hblank).
Qed.

(** X11. [handleAnalysis] calls the API exactly when the text holds a
    character that is not white space; for a blank text it only sets the
    error message and leaves everything else as it was. *)
Theorem blank_text_is_not_analysed (E : Environment) text st :
  (awaited (handleAnalysis text st) = []
   ↔ Forall (λ c, isWhiteSpace c = true) text)
  ∧ (Forall (λ c, isWhiteSpace c = true) text →
     final (handleAnalysis text st)
     = setError (Some "El documento no puede estar vacío.") st).
Proof.
  rewrite <- trim_nil. unfold handleAnalysis.
  case_bool_decide as Hblank; split; try done.
Qed.

Lemma blank_text_is_not_analysed_witness :
  final (handleAnalysis (E := echoEnvironment) [32; 10; 9]%N analysedState)
  = setError (Some "El documento no puede estar vacío.") analysedState.
Proof.
  apply (proj2 (blank_text_is_not_analysed echoEnvironment [32; 10; 9]%N
                  analysedState)).
  by repeat constructor.
Defined.



(** ** Translation *)

(** X13. A successful translation is stored under its mode and nowhere
    else: the translations of the other modes, the analyses and the audio
    stay as they were, the English text is shown and the spinner is off.
    Without a Spanish text for the mode nothing is requested. *)
Theorem translation_is_stored_under_its_mode (E : Environment) mode st :
  (∀ spanishText translatedText,
      textOf (analysisResults st) mode = Some spanishText →
      settled (translateText spanishText) = Normal translatedText →
      (translatedResults (final (handleTranslate mode st)) ≫= (.!! mode))
      = Some translatedText
      ∧ (∀ other, other ≠ mode →
           (translatedResults (final (handleTranslate mode st)) ≫= (.!! other))
           = (translatedResults st ≫= (.!! other)))
      ∧ analysisResults (final (handleTranslate mode st)) = analysisResults st
      ∧ audioBlob (final (handleTranslate mode st)) = audioBlob st
      ∧ displayedLanguage (final (handleTranslate mode st)) = en
      ∧ isTranslating (final (handleTranslate mode st)) = false
      ∧ call <$> concat (awaited (handleTranslate mode st))
        = [TranslateText spanishText])
  ∧ (textOf (analysisResults st) mode = None →
     handleTranslate mode st
     = {| final := setError (Some "No hay texto para traducir.") st;
          awaited := [] |}).
Proof.
  split.
  - intros spanishText translatedText Htext Hok. unfold handleTranslate.
    rewrite Htext, Hok. cbn. split_and!; try done.
    + apply lookup_insert_eq.
    + intros other Hother. rewrite lookup_insert_ne by done.
      by destruct (translatedResults st).
  - intros Htext. unfold handleTranslate. by rewrite Htext.
Qed.

Lemma translation_is_stored_under_its_mode_witness :
  (translatedResults
     (final (handleTranslate (E := echoEnvironment) Resumido analysedState))
   ≫= (.!! Resumido))
  = Some (js "Hola. Que tal?").
Proof.
  apply (proj1 (translation_is_stored_under_its_mode echoEnvironment Resumido
                  analysedState) (js "Hola. Que tal?"));
    vm_compute; reflexivity.
Defined.

(** ** The translate button *)

Lemma translateButtonClick_cached {E : Environment} st translated :
  textOf (translatedResults st) (activeTab st) = Some translated →
  translateButtonClick st
  = {| final :=
         setDisplayedLanguage
           match displayedLanguage st with es => en | en => es end st;
       awaited := [] |}.
Proof.
  intros Htext. unfold translateButtonClick, isEnglishTranslated.
  rewrite Htext. rewrite bool_decide_eq_true_2 by (by eexists).
  by destruct (displayedLanguage st).
Qed.


(** X14. A tab that has an English text is not translated again: the
    translate button then only toggles the displayed language, sends no
    request and keeps all texts; a second click brings the display back;
    and this stays so after a visit to another tab.  The button sends a
    request only from the Spanish view of a tab without English text. *)
Theorem translation_is_requested_once (E : Environment) st :
  (∀ translated,
      textOf (translatedResults st) (activeTab st) = Some translated →
      awaited (translateButtonClick st) = []
      ∧ translatedResults (final (translateButtonClick st)) = translatedResults st
      ∧ analysisResults (final (translateButtonClick st)) = analysisResults st
      ∧ displayedLanguage (final (translateButtonClick st))
        = match displayedLanguage st with es => en | en => es end
      ∧ awaited (translateButtonClick (final (translateButtonClick st))) = []
      ∧ displayedLanguage
          (final (translateButtonClick (final (translateButtonClick st))))
        = displayedLanguage st
      ∧ ∀ other,
          awaited (translateButtonClick
                     (resultTabClick (activeTab st) (resultTabClick other st)))
          = [])
  ∧ (awaited (translateButtonClick st) ≠ [] →
     displayedLanguage st = es ∧ isEnglishTranslated st = false).
Proof.
  split.
  - intros translated Htext.
    rewrite (translateButtonClick_cached st translated Htext).
    cbn [final awaited].
    rewrite (translateButtonClick_cached
               (setDisplayedLanguage
                  match displayedLanguage st with es => en | en => es end st)
               translated Htext).
    cbn [final awaited].
    do 5 (split; [reflexivity|]).
    split.
    + destruct (displayedLanguage st); reflexivity.
    + intros other.
      rewrite (translateButtonClick_cached
                 (resultTabClick (activeTab st) (resultTabClick other st))
                 translated Htext).
      reflexivity.
  - unfold translateButtonClick.
    destruct (displayedLanguage st).
    + destruct (isEnglishTranslated st); intros Hne.
      * exfalso. apply Hne. reflexivity.
      * split; reflexivity.
    + intros Hne. exfalso. apply Hne. reflexivity.
Qed.

Lemma translation_is_requested_once_witness :
  awaited (translateButtonClick (E := echoEnvironment) translatedSession) = [].
Proof.
  destruct (proj1 (translation_is_requested_once echoEnvironment
                     translatedSession) (js "Hola. Que tal?"))
    as (Hnone & _); [vm_compute; reflexivity | exact Hnone].
Defined.

(** ** The handlers around their [await] *)

Section SuspensionFacts.
Context {E : Environment} {L : LameJs}.

(** Each handler of the model is its part before the [await] followed at
    once by the rest. *)
Lemma handleAnalysis_finish text st :
  final (handleAnalysis text st) = finish (handleAnalysis_begin text st).
Proof.
  unfold handleAnalysis, handleAnalysis_begin, finish.
  by case_bool_decide.
Qed.

Lemma handleTranslate_finish mode st :
  final (handleTranslate mode st) = finish (handleTranslate_begin mode st).
Proof.
  unfold handleTranslate, handleTranslate_begin, finish.
  by destruct (textOf (analysisResults st) mode).
Qed.

Lemma translateButtonClick_finish st :
  final (translateButtonClick st) = finish (translateButtonClick_begin st).
Proof.
  unfold translateButtonClick, translateButtonClick_begin.
  destruct (displayedLanguage st); [|done].
  destruct (isEnglishTranslated st); [done|]. apply handleTranslate_finish.
Qed.

Lemma handleGenerateAudio_finish fuel mode language st :
  final <$> handleGenerateAudio fuel mode language st
  = finish <$> handleGenerateAudio_begin fuel mode language st.
Proof.
  unfold handleGenerateAudio, handleGenerateAudio_begin, finish.
  destruct (textToSpeakOf mode language st) as [textToSpeak|]; [|done].
  destruct (isLameJsReady st); [|done]. cbn [negb].
  destruct (tryGenerateAudio fuel textToSpeak language)
    as [[|pending [mp3Blob|e]]|]; done.
Qed.

Lemma handleFileChange_finish files st :
  handleFileChange files st = finish (handleFileChange_begin files st).
Proof.
  unfold handleFileChange, handleFileChange_begin, finish.
  destruct files as [file|]; [|done]. by repeat case_bool_decide.
Qed.

(** ** Sessions *)

Lemma act_step fuel action page page' :
  act fuel action page = Some page' → step page page'.
Proof. intros Hact. by exists fuel, action. Qed.

Lemma session_steps fuel actions page page' :
  session fuel actions page = Some page' → rtc step page page'.
Proof.
  revert page. induction actions as [|action actions IH]; intros page.
  - intros [= <-]. apply rtc_refl.
  - cbn [session]. destruct (act fuel action page) as [page1|] eqn:Hact; [|done].
    intros Hrest. eapply rtc_l; [by eapply act_step | by apply IH].
Qed.

Lemma session_reachable fuel actions page :
  session fuel actions (initialState, []) = Some page → reachable page.
Proof. apply session_steps. Qed.

(** The audio and its blob are set and cleared together, in every part
    of every handler. *)
Lemma audio_pair_handleEvent fuel event st st' suspended :
  handleEvent fuel event st = Some (st', suspended) →
  (is_Some (audioSrc st) ↔ is_Some (audioBlob st)) →
  (is_Some (audioSrc st') ↔ is_Some (audioBlob st')).
Proof.
  intros Hevent Hpair.
  assert (∀ A, is_Some (@None A) ↔ is_Some (@None (Blob * Language)))
    as Hnone by (intros A; split; intros [? [=]]).
  destruct event; cbn [handleEvent] in Hevent.
  - by injection Hevent as <- <-.
  - by injection Hevent as <- <-.
  - by injection Hevent as <- <-.
  - by injection Hevent as <- <-.
  - by injection Hevent as <- <-.
  - injection Hevent as Hevent. unfold handleFileChange_begin in Hevent.
    destruct files as [file|]; [|by injection Hevent as <- <-].
    repeat case_bool_decide; by injection Hevent as <- <-.
  - injection Hevent as Hevent. unfold handleAnalysis_begin in Hevent.
    case_bool_decide; injection Hevent as <- <-; [done|]. cbn. apply Hnone.
  - injection Hevent as <- <-. cbn. apply Hnone.
  - injection Hevent as <- <-. cbn. apply Hnone.
  - injection Hevent as Hevent.
    unfold translateButtonClick_begin, handleTranslate_begin in Hevent.
    destruct (displayedLanguage st); [|by injection Hevent as <- <-].
    destruct (isEnglishTranslated st); [by injection Hevent as <- <-|].
    destruct (textOf (analysisResults st) (activeTab st));
      by injection Hevent as <- <-.
  - unfold handleGenerateAudio_begin in Hevent.
    destruct (textToSpeakOf (activeTab st) language st) as [textToSpeak|];
      [|by injection Hevent as <- <-].
    destruct (isLameJsReady st); cbn [negb] in Hevent;
      [|by injection Hevent as <- <-].
    destruct (tryGenerateAudio fuel textToSpeak language) as [attempt|];
      cbn in Hevent; [|done].
    destruct attempt; injection Hevent as <- <-; cbn; apply Hnone.
Qed.

Lemma audio_pair_resume suspended st :
  (is_Some (audioSrc st) ↔ is_Some (audioBlob st)) →
  (is_Some (audioSrc (resume suspended st))
   ↔ is_Some (audioBlob (resume suspended st))).
Proof.
  intros Hpair. destruct suspended as [promise|mode promise|language pending outcome|file|file];
    cbn [resume].
  - by destruct (settled promise).
  - by destruct (settled promise).
  - destruct outcome as [mp3Blob|e]; [|done]. cbn. by split; eexists.
  - by destruct (readAsText file).
  - by destruct (extractTextFromPdf file).
Qed.

Lemma audio_pair_reachable page :
  reachable page →
  is_Some (audioSrc page.1) ↔ is_Some (audioBlob page.1).
Proof.
  unfold reachable. revert page.
  apply (rtc_ind_r (λ page, is_Some (audioSrc page.1) ↔ is_Some (audioBlob page.1))).
  { cbn. split; intros [? [=]]. }
  intros [st waiting] page' _ (fuel & action & Hact) Hpair.
  destruct action as [event|i]; cbn [act fst snd] in Hact.
  - destruct (handleEvent fuel event st) as [[st' suspended]|] eqn:Hevent;
      [|done].
    injection Hact as <-. by eapply audio_pair_handleEvent.
  - destruct (waiting !! i) as [suspended|]; [|done].
    injection Hact as <-. by apply audio_pair_resume.
Qed.
End SuspensionFacts.

Lemma resultsViewSession_session {E : Environment} {L : LameJs}
    fuel actions page page' :
  resultsViewSession fuel actions page = Some page' →
  session fuel actions page = Some page'.
Proof.
  revert page. induction actions as [|action actions IH]; intros page; [done|].
  cbn [resultsViewSession session].
  destruct (match action with
            | Occurs event => resultsViewControl event page.1
            | Settles _ => true
            end); [|done].
  destruct (act fuel action page); [apply IH | done].
Qed.

(** X17. The download button of the audio player always downloads: in
    every page a session reaches, with handlers going on in any order
    between the events, a state that shows the player holds the audio
    blob too, so [handleDownloadAudio] does not return early and names
    the file after the uploaded file and the language of that audio. *)
Theorem download_button_always_downloads (E : Environment) (L : LameJs)
    st waiting c src :
  reachable (st, waiting) →
  audioSrc st = Some (String c src) →
  ∃ blob language,
    audioBlob st = Some (blob, language)
    ∧ handleDownloadAudio st
      = Some {| href := String c src;
                download := baseFileName (fileName st) ++ js "_audio_"
                              ++ languageCode language ++ js ".mp3" |}.
Proof.
  intros Hreach Hsrc. apply audio_pair_reachable in Hreach as [Hpair _].
  cbn [fst] in Hpair.
  destruct Hpair as [[blob language] Hblob]; [by rewrite Hsrc|].
  exists blob, language. split; [done|].
  unfold handleDownloadAudio. by rewrite Hsrc, Hblob.
Qed.

Lemma download_button_always_downloads_witness :
  ∃ blob language,
    audioBlob spokenState = Some (blob, language)
    ∧ handleDownloadAudio spokenState
      = Some {| href := "blob:audio";
                download := baseFileName (fileName spokenState) ++ js "_audio_"
                              ++ languageCode language ++ js ".mp3" |}.
Proof.
  apply (download_button_always_downloads echoEnvironment constantEncoder
           spokenState [] "b" "lob:audio").
  - apply (session_reachable 10 spokenActions). vm_compute. reflexivity.
  - vm_compute. reflexivity.
Defined.

(** ** Handlers that go on after another event *)

(** X15. The results view can be left without a text, showing
    [Cargando...] with no request waiting and no error.  From the Spanish
    view of a tab that has a text and no translation: (1) a click on
    another tab while the translation is awaited: the translation is
    stored under the tab it was made for, but the English display is
    switched on for the tab now active, which has no English text;
    (2) a translation that arrives as the empty string is stored and
    displayed, and the tab still counts as not translated. *)
Theorem results_view_can_lose_its_text (E : Environment) (L : LameJs)
    fuel st spanishText :
  isProcessed st = true → isTranslating st = false →
  displayedLanguage st = es →
  isEnglishTranslated st = false →
  textOf (analysisResults st) (activeTab st) = Some spanishText →
  (∀ translatedText other,
      settled (translateText spanishText) = Normal translatedText →
      other ≠ activeTab st →
      translatedResults st ≫= (λ r, r !! other) = None →
      ∃ st',
        resultsViewSession fuel
          [Occurs TranslateClick; Occurs (ResultTabClick other); Settles 0]
          (st, [])
        = Some (st', [])
        ∧ activeTab st' = other ∧ displayedLanguage st' = en
        ∧ translatedResults st' ≫= (λ r, r !! activeTab st) = Some translatedText
        ∧ currentTextToDisplay st' = None
        ∧ shownText st' = js "Cargando..."
        ∧ error st' = None ∧ isTranslating st' = false)
  ∧ (settled (translateText spanishText) = Normal [] →
     ∃ st',
       resultsViewSession fuel [Occurs TranslateClick; Settles 0] (st, [])
       = Some (st', [])
       ∧ st' = final (handleTranslate (activeTab st) st)
       ∧ displayedLanguage st' = en
       ∧ currentTextToDisplay st' = Some []
       ∧ shownText st' = js "Cargando..."
       ∧ isEnglishTranslated st' = false
       ∧ error st' = None ∧ isTranslating st' = false).
Proof.
  intros Hview Hidle Hlanguage Hnot Htext.
  assert (handleEvent fuel TranslateClick st
          = Some (setError None (setIsTranslating true st),
                  Some (AwaitTranslation (activeTab st)
                          (translateText spanishText)))) as Hclick.
  { cbn [handleEvent]. unfold translateButtonClick_begin, handleTranslate_begin.
    by rewrite Hlanguage, Hnot, Htext. }
  split.
  - intros translatedText other Hsettled Hother Hnone.
    eexists. split.
    { cbn [resultsViewSession fst]. unfold resultsViewControl at 1.
      rewrite Hview, Hidle. cbn [andb negb act fst snd].
      rewrite Hclick. cbn [option_list app resultsViewSession fst].
      unfold resultsViewControl. cbn [isProcessed setError setIsTranslating].
      rewrite Hview. cbn [andb act handleEvent fst snd app lookup list_lookup
                          delete list_delete resume].
      unfold option_list.
      cbn [option_rect app lookup list_lookup delete list_delete resume].
      rewrite Hsettled. reflexivity. }
    cbn. rewrite lookup_insert_eq.
    unfold currentTextToDisplay, shownText, currentTextToDisplay. cbn.
    rewrite lookup_insert_ne by done.
    assert (default ∅ (translatedResults st) !! other = None) as ->.
    { destruct (translatedResults st); [done | apply lookup_empty]. }
    by split_and!.
  - intros Hsettled. eexists. split.
    { cbn [resultsViewSession fst]. unfold resultsViewControl.
      rewrite Hview, Hidle. cbn [andb negb act fst snd].
      rewrite Hclick. unfold option_list.
      cbn [resultsViewSession act fst snd option_rect app lookup list_lookup
           delete list_delete resume].
      rewrite Hsettled. reflexivity. }
    split.
    { unfold handleTranslate. rewrite Htext. cbn [final]. by rewrite Hsettled. }
    unfold currentTextToDisplay, shownText, currentTextToDisplay,
      isEnglishTranslated, textOf. cbn. rewrite lookup_insert_eq.
    by split_and!.
Qed.

Lemma results_view_can_lose_its_text_witness :
  (∃ st',
     resultsViewSession (E := echoEnvironment) (L := constantEncoder) 10
       [Occurs TranslateClick; Occurs (ResultTabClick Completo); Settles 0]
       (analysedSession, [])
     = Some (st', [])
     ∧ activeTab st' = Completo ∧ displayedLanguage st' = en
     ∧ shownText st' = js "Cargando...")
  ∧ ∃ st',
      resultsViewSession (E := silentTranslator) (L := constantEncoder) 10
        [Occurs TranslateClick; Settles 0] (silentSession, [])
      = Some (st', [])
      ∧ displayedLanguage st' = en ∧ shownText st' = js "Cargando...".
Proof.
  split.
  - destruct (results_view_can_lose_its_text echoEnvironment constantEncoder
                10 analysedSession (js "Hola. Que tal?"))
      as [Hrace _]; [vm_compute; reflexivity..|].
    destruct (Hrace (js "Hola. Que tal?") Completo)
      as (st' & Hsession & Htab & Hlanguage & _ & _ & Hshown & _);
      [vm_compute; reflexivity | vm_compute; discriminate
      | vm_compute; reflexivity |].
    by exists st'.
  - destruct (results_view_can_lose_its_text silentTranslator constantEncoder
                10 silentSession (js "Hola. Que tal?"))
      as [_ Hempty]; [vm_compute; reflexivity..|].
    destruct Hempty as (st' & Hsession & _ & Hlanguage & _ & Hshown & _);
      [vm_compute; reflexivity|].
    by exists st'.
Defined.

(** X22. The audio of one tab can end up in the player of another.  A
    click on a tab while the speech is awaited clears the audio and
    changes the tab; the handler that goes on afterwards then sets the
    audio it made from the text of the tab that was left, under the
    language it was asked for, whether or not the tab now active has a
    text in that language. *)
Theorem audio_can_belong_to_another_tab (E : Environment) (L : LameJs)
    fuel st language textToSpeak pending mp3Blob other :
  isProcessed st = true → isGeneratingAudio st = false →
  isLameJsReady st = true →
  textToSpeakOf (activeTab st) language st = Some textToSpeak →
  tryGenerateAudio fuel textToSpeak language
  = Some (Attempted pending (Normal mp3Blob)) →
  ∃ st',
    resultsViewSession fuel
      [Occurs (AudioClick language); Occurs (ResultTabClick other); Settles 0]
      (st, [])
    = Some (st', [])
    ∧ activeTab st' = other ∧ displayedLanguage st' = es
    ∧ audioSrc st' = Some (createObjectURL mp3Blob)
    ∧ audioBlob st' = Some (mp3Blob, language)
    ∧ textToSpeakOf other language st' = textToSpeakOf other language st
    ∧ error st' = None ∧ isGeneratingAudio st' = false.
Proof.
  intros Hview Hidle Hready Htext Hattempt.
  eexists. split.
  { cbn [resultsViewSession fst]. unfold resultsViewControl at 1.
    rewrite Hview, Hidle, Htext.
    rewrite bool_decide_eq_true_2 by (by eexists).
    cbn [andb orb negb act handleEvent fst snd].
    unfold handleGenerateAudio_begin. rewrite Htext, Hready. cbn [negb].
    rewrite Hattempt. cbn [mbind option_bind].
    unfold option_list. cbn [option_rect app resultsViewSession fst].
    unfold resultsViewControl.
    cbn [isProcessed setError setWarning setAudioSrc setAudioBlob
         setIsGeneratingAudio].
    rewrite Hview.
    cbn [andb act handleEvent fst snd option_rect app lookup list_lookup
         delete list_delete resume resultsViewSession].
    reflexivity. }
  cbn. unfold textToSpeakOf. by split_and!.
Qed.

Lemma audio_can_belong_to_another_tab_witness :
  ∃ st',
    resultsViewSession (E := echoEnvironment) (L := constantEncoder) 10
      [Occurs (AudioClick es); Occurs (ResultTabClick Completo); Settles 0]
      (analysedSession, [])
    = Some (st', [])
    ∧ activeTab st' = Completo ∧ is_Some (audioSrc st').
Proof.
  assert (∃ pending mp3Blob,
            tryGenerateAudio (E := echoEnvironment) (L := constantEncoder) 10
              (js "Hola. Que tal?") es
            = Some (Attempted pending (Normal mp3Blob)))
    as (pending & mp3Blob & Hattempt)
    by (eexists _, _; vm_compute; reflexivity).
  destruct (audio_can_belong_to_another_tab echoEnvironment constantEncoder
              10 analysedSession es (js "Hola. Que tal?") pending mp3Blob
              Completo)
    as (st' & Hsession & Htab & _ & Hsrc & _);
    [vm_compute; reflexivity | vm_compute; reflexivity
    | vm_compute; reflexivity | vm_compute; reflexivity | exact Hattempt |].
  exists st'. split_and!; [exact Hsession | exact Htab |].
  rewrite Hsrc. by eexists.
Defined.

(** ** The name of the download *)

Lemma lastIndexFrom_absent i (s : jsstring) c found :
  c ∉ s → lastIndexFrom i s c found = found.
Proof.
  revert i. induction s as [|x s IH]; intros i Hc; [done|].
  apply not_elem_of_cons in Hc as [Hx Hs]. cbn [lastIndexFrom].
  rewrite bool_decide_eq_false_2 by done. by apply IH.
Qed.

Lemma lastIndexFrom_last i (stem ext : jsstring) c found :
  c ∉ ext → lastIndexFrom i (stem ++ c :: ext) c found = Some (i + length stem).
Proof.
  intros Hext. revert i found.
  induction stem as [|x stem IH]; intros i found; cbn [app lastIndexFrom length].
  - rewrite bool_decide_eq_true_2 by done.
    rewrite lastIndexFrom_absent by done. f_equal. lia.
  - rewrite IH. f_equal. lia.
Qed.

Lemma substring_prefix (stem rest : jsstring) :
  substring (stem ++ rest) 0 (length stem) = stem.
Proof.
  unfold substring. rewrite length_app.
  replace (0 `min` (length stem + length rest)) with 0 by lia.
  replace (length stem `min` (length stem + length rest)) with (length stem)
    by lia.
  replace (0 `min` length stem) with 0 by lia.
  replace (0 `max` length stem) with (length stem) by lia.
  rewrite Nat.sub_0_r, drop_0. by rewrite take_app_length.
Qed.

Lemma substring_0_0 (s : jsstring) : substring s 0 0 = [].
Proof. done. Qed.

(** X19. The name of the downloaded audio drops the last extension of the
    uploaded file and nothing more; a name without a dot, or whose only
    dot comes first, is kept whole; without an upload the name is
    [analisis-de-texto].  The base name is never empty. *)
Theorem download_name_drops_last_extension :
  baseFileName [] = js "analisis-de-texto"
  ∧ (∀ stem ext,
       stem ≠ [] → 46%N ∉ ext → baseFileName (stem ++ 46%N :: ext) = stem)
  ∧ (∀ name, name ≠ [] → 46%N ∉ name → baseFileName name = name)
  ∧ (∀ ext, 46%N ∉ ext → baseFileName (46%N :: ext) = 46%N :: ext)
  ∧ (∀ name, baseFileName name ≠ []).
Proof.
  split_and!.
  - done.
  - intros stem ext Hstem Hext. unfold baseFileName, lastIndexOf.
    rewrite bool_decide_eq_false_2 by (by destruct stem).
    rewrite lastIndexFrom_last by done. cbn [default Nat.add].
    rewrite substring_prefix. by rewrite bool_decide_eq_false_2.
  - intros name Hname Hdot. unfold baseFileName, lastIndexOf.
    rewrite bool_decide_eq_false_2 by done.
    rewrite lastIndexFrom_absent by done. cbn [default].
    rewrite substring_0_0. by rewrite bool_decide_eq_true_2.
  - intros ext Hext. unfold baseFileName, lastIndexOf.
    rewrite bool_decide_eq_false_2 by done.
    pose proof (lastIndexFrom_last 0 [] ext 46%N None Hext) as Hlast.
    cbn [app length Nat.add] in Hlast. rewrite Hlast. cbn [default].
    rewrite substring_0_0. by rewrite bool_decide_eq_true_2.
  - intros name. unfold baseFileName. repeat case_bool_decide; done.
Qed.

Lemma download_name_drops_last_extension_witness :
  baseFileName (js "libro.v2.pdf") = js "libro.v2".
Proof.
  apply (proj1 (proj2 download_name_drops_last_extension)
           (js "libro.v2") (js "pdf")).
  - discriminate.
  - vm_compute. intros Hin. by repeat (apply elem_of_cons in Hin as [?|Hin]; [done|]);
      apply elem_of_nil in Hin.
Defined.

(** ** Uploads *)




Lemma blank_pageText (items : list jsstring) :
  Forall (Forall (λ c, isWhiteSpace c = true)) items →
  Forall (λ c, isWhiteSpace c = true) (pageText items).
Proof.
  intros Hitems. destruct Hitems as [|first others Hfirst Hothers]; [done|].
  cbn [pageText]. apply Forall_app. split; [done|].
  induction Hothers as [|item others Hitem _ IH]; [done|].
  cbn. constructor; [done|]. by apply Forall_app.
Qed.

Lemma blank_fullText (pages : list (list jsstring)) fullText :
  Forall (λ c, isWhiteSpace c = true) fullText →
  blankPages pages →
  Forall (λ c, isWhiteSpace c = true)
    (foldl (λ fullText items, fullText ++ pageText items ++ [10; 10]%N)
           fullText pages).
Proof.
  intros Hfull Hpages. revert fullText Hfull.
  induction Hpages as [|items pages Hitems _ IH]; intros fullText Hfull; [done|].
  cbn [foldl]. apply IH. apply Forall_app. split; [done|].
  apply Forall_app. split; [by apply blank_pageText|].
  by repeat constructor.
Qed.

Lemma fullText_length (pages : list (list jsstring)) fullText :
  length fullText + 2 * length pages
  ≤ length (foldl (λ fullText items, fullText ++ pageText items ++ [10; 10]%N)
              fullText pages).
Proof.
  revert fullText.
  induction pages as [|items pages IH]; intros fullText; cbn [foldl length].
  - lia.
  - specialize (IH (fullText ++ pageText items ++ [10; 10]%N)).
    rewrite !length_app in IH. cbn [length] in IH. lia.
Qed.

(** X21. A PDF without text is accepted by the upload and refused by the
    analysis: when every text item of every page is white space (a scan
    has none), [handleFileChange] stores the file name and a text of line
    breaks without an error, and [handleAnalysis] of that text sends no
    request and reports an empty document. *)
Theorem scanned_pdf_is_reported_empty (E : Environment) file typedarray pages st :
  file_type file = "application/pdf" →
  readAsArrayBuffer file = Some typedarray →
  pdfTextItems typedarray = Normal pages →
  blankPages pages →
  error (handleFileChange (Some file) st) = None
  ∧ fileName (handleFileChange (Some file) st) = file_name file
  ∧ length (documentText (handleFileChange (Some file) st)) ≥ 2 * length pages
  ∧ handleAnalysis (documentText (handleFileChange (Some file) st))
      (handleFileChange (Some file) st)
    = {| final := setError (Some "El documento no puede estar vacío.")
                    (handleFileChange (Some file) st);
         awaited := [] |}.
Proof.
  intros Htype Hread Hitems Hblank.
  assert (handleFileChange (Some file) st
          = setIsParsingPdf false
              (setDocumentText
                 (foldl (λ fullText items, fullText ++ pageText items ++ [10; 10]%N)
                        [] pages)
                 (setFileName (file_name file)
                    (setIsParsingPdf true
                       (setDocumentText []
                          (setFileName [] (setWarning None (setError None st))))))))
    as ->.
  { unfold handleFileChange, extractTextFromPdf. rewrite Htype, Hread, Hitems.
    by rewrite bool_decide_eq_false_2, bool_decide_eq_true_2. }
  cbn [error fileName documentText setIsParsingPdf setDocumentText setFileName
       setWarning setError].
  split_and!; try done.
  - pose proof (fullText_length pages []) as Hlength.
    cbn [length] in Hlength. lia.
  - unfold handleAnalysis. cbn [documentText].
    rewrite bool_decide_eq_true_2; [done|].
    apply trim_nil. by apply blank_fullText.
Qed.

Lemma scanned_pdf_is_reported_empty_witness :
  awaited (handleAnalysis (E := scannerEnvironment)
             (documentText (handleFileChange (E := scannerEnvironment)
                              (Some scanFile) initialState))
             (handleFileChange (E := scannerEnvironment) (Some scanFile)
                initialState))
  = [].
Proof.
  destruct (scanned_pdf_is_reported_empty scannerEnvironment scanFile []
              (scannedPages 2) initialState) as (_ & _ & _ & Hrun).
  - reflexivity.
  - reflexivity.
  - reflexivity.
  - repeat constructor.
  - by rewrite Hrun.
Defined.
